(** * LOCALRAG: the chunk / embed / index / query pipeline of the notebook

    A shallow embedding of the four code cells of [LOCALRAG(Task1).ipynb]:
    [chunk_and_embed_text], [create_faiss_index] and [search_query],
    together with the parts of Python, NumPy and FAISS they call.

    Conventions.
    - A Python [str] is a [string]; the newline is the character 010.
    - A float32 is modelled by the rational it denotes.  Distances are
      computed exactly, without rounding; a distance that reaches the
      largest float32 stands for one that float32 cannot hold, and the
      index treats it so.  The facts below do not rest on how nearly
      equal distances are ordered.
    - An uncaught Python exception is the [Raise] outcome of [result].
    - The sentence encoder is a parameter of the development: [encode1]
      gives the vector of one sentence, of the model's width [dim]. *)

From Stdlib Require Import List ZArith QArith Lia Lqa Bool Ascii String.
From Stdlib Require Import Permutation Sorted.
Import ListNotations.

Local Open Scope nat_scope.
Local Open Scope list_scope.

(** ** Python exceptions and the error monad *)

Inductive exn : Type :=
| IndexError      (* sequence or tuple index out of range *)
| AssertionError  (* a failed [assert] of the FAISS wrapper *)
| ValueError.     (* tuple unpacking of a shape of the wrong rank *)

Inductive result (A : Type) : Type :=
| Ok (a : A)
| Raise (e : exn).

Arguments Ok {A} a.
Arguments Raise {A} e.

Definition bind {A B : Type} (m : result A) (k : A -> result B) : result B :=
  match m with
  | Ok a => k a
  | Raise e => Raise e
  end.

Notation "x <- m ;; k" := (bind m (fun x => k))
  (at level 61, m at next level, right associativity).

Fixpoint mapM {A B : Type} (f : A -> result B) (l : list A) : result (list B) :=
  match l with
  | [] => Ok []
  | a :: l' => b <- f a ;; bs <- mapM f l' ;; Ok (b :: bs)
  end.

(** ** Python sequences *)

(** [seq[i]] for a Python list and a signed index: a negative index
    counts from the end, anything outside [-len, len) raises. *)
Definition getitem {A : Type} (l : list A) (i : Z) : result A :=
  let n := Z.of_nat (List.length l) in
  let j := if (i <? 0)%Z then (i + n)%Z else i in
  if ((0 <=? j)%Z && (j <? n)%Z)%bool then
    match nth_error l (Z.to_nat j) with
    | Some a => Ok a
    | None => Raise IndexError
    end
  else Raise IndexError.

(** ** [str.split] on the paragraph separator *)

Definition nl : ascii := "010"%char.

Definition sep : string := String nl (String nl EmptyString).

Definition is_nl (c : ascii) : bool := Ascii.eqb c nl.

(** [split_from cur s]: the scan of [(cur + s).split("\n\n")] once the
    piece under construction holds [cur].  The scan goes left to right;
    at a separator it closes the piece and resumes after the separator. *)
Fixpoint split_from (cur : string) (s : string) : list string :=
  match s with
  | EmptyString => [cur]
  | String c1 rest =>
      match rest with
      | String c2 rest' =>
          if (is_nl c1 && is_nl c2)%bool
          then cur :: split_from EmptyString rest'
          else split_from (cur ++ String c1 EmptyString)%string rest
      | EmptyString => [(cur ++ String c1 EmptyString)%string]
      end
  end.

(** [text.split("\n\n")] *)
Definition split (text : string) : list string := split_from EmptyString text.

(** [text.count("\n\n")]: occurrences of the separator, found left to
    right without overlap. *)
Fixpoint count (s : string) : nat :=
  match s with
  | EmptyString => 0
  | String c1 rest =>
      match rest with
      | String c2 rest' =>
          if (is_nl c1 && is_nl c2)%bool then S (count rest') else count rest
      | EmptyString => 0
      end
  end.

(** Whether the string ends, or starts, with a newline. *)
Fixpoint ends_nl (s : string) : bool :=
  match s with
  | EmptyString => false
  | String c EmptyString => is_nl c
  | String _ s' => ends_nl s'
  end.

Definition starts_nl (s : string) : bool :=
  match s with
  | EmptyString => false
  | String c _ => is_nl c
  end.

(** ["\n\n".join(pieces)] *)
Fixpoint join (pieces : list string) : string :=
  match pieces with
  | [] => EmptyString
  | [p] => p
  | p :: ps => (p ++ sep ++ join ps)%string
  end.

(** ** NumPy arrays *)

(** A float32 vector. *)
Definition vec : Type := list Q.

(** The arrays that reach the pipeline: a 2-D array of shape
    [(len rows, ncols)], all of whose rows have [ncols] entries, or a 1-D
    array of shape [(len items,)] (an object array holds sequences of any
    lengths). *)
Inductive ndarray : Type :=
| Array2 (ncols : nat) (rows : list vec)
| Array1 (items : list vec).

Definition well_formed (a : ndarray) : Prop :=
  match a with
  | Array2 ncols rows => Forall (fun r => List.length r = ncols) rows
  | Array1 _ => True
  end.

(** [a.shape] *)
Definition shape (a : ndarray) : list nat :=
  match a with
  | Array2 ncols rows => [List.length rows; ncols]
  | Array1 items => [List.length items]
  end.

(** [a.shape[i]] *)
Definition shape_getitem (a : ndarray) (i : Z) : result nat :=
  getitem (shape a) i.

(** [n, d = a.shape] *)
Definition unpack_shape (a : ndarray) : result (nat * nat) :=
  match shape a with
  | [n; d] => Ok (n, d)
  | _ => Raise ValueError
  end.

(** The rows of the array, in order. *)
Definition rows_of (a : ndarray) : list vec :=
  match a with
  | Array2 _ rows => rows
  | Array1 items => items
  end.

(** ** The FAISS flat L2 index *)

(** The state of a [faiss.IndexFlatL2]: its width and the stored vectors
    in insertion order; the identifier of a vector is its position. *)
Record IndexFlatL2 : Type := mkIndex {
  index_d  : nat;
  index_xb : list vec
}.

Definition ntotal (index : IndexFlatL2) : nat := List.length (index_xb index).

(** [faiss.IndexFlatL2(d)] *)
Definition new_IndexFlatL2 (d : nat) : IndexFlatL2 := mkIndex d [].

(** [index.add(x)]: the wrapper unpacks the shape, asserts that the width
    is the index's, and appends the rows.  The mutation of [index] is the
    returned state. *)
Definition add (index : IndexFlatL2) (x : ndarray) : result IndexFlatL2 :=
  match unpack_shape x with
  | Raise e => Raise e
  | Ok (_, dx) =>
      if Nat.eqb dx (index_d index)
      then Ok (mkIndex (index_d index) (index_xb index ++ rows_of x))
      else Raise AssertionError
  end.

(** Squared Euclidean distance, computed exactly. *)
Definition fvec_L2sqr (x y : vec) : Q :=
  fold_right Qplus 0%Q
    (map (fun p => ((fst p - snd p) * (fst p - snd p))%Q) (combine x y)).

(** The largest finite float32: the distance every result slot holds
    before the scan, and the distance FAISS reports in a slot it could
    not fill. *)
Definition flt_max : Q := inject_Z (2 ^ 128 - 2 ^ 104).

(** The label FAISS reports in a result slot it could not fill. *)
Definition no_label : Z := (-1)%Z.

(** A candidate: a distance and the position of the stored vector. *)
Abbreviation candidate := (Q * Z)%type.

(** Every stored vector with its distance to the query [q]. *)
Definition candidates (q : vec) (xb : list vec) : list candidate :=
  combine (map (fvec_L2sqr q) xb) (map Z.of_nat (seq 0 (List.length xb))).

(** Ordered insertion; among equal distances the inserted candidate goes
    first. *)
Fixpoint insert (c : candidate) (l : list candidate) : list candidate :=
  match l with
  | [] => [c]
  | h :: t => if Qle_bool (fst c) (fst h) then c :: l else h :: insert c t
  end.

(** Candidates by increasing distance, equal distances by increasing
    position. *)
Definition by_distance (l : list candidate) : list candidate :=
  fold_right insert [] l.

(** A stored vector enters a result slot only with a distance below the
    one the slot holds; the slots start at [flt_max], so a distance that
    reaches it (in float32: the largest float, an overflow to infinity)
    enters none. *)
Definition admitted (c : candidate) : bool :=
  negb (Qle_bool flt_max (fst c)).

(** The [k] result slots of one query: the nearest admitted vectors by
    increasing distance, then unfilled slots. *)
Definition knn (k : nat) (q : vec) (xb : list vec) : list candidate :=
  let best := firstn k (by_distance (filter admitted (candidates q xb))) in
  best ++ repeat (flt_max, no_label) (k - List.length best).

(** [index.search(x, k)]: the wrapper unpacks the shape of the query
    array, asserts its width and [k > 0], and returns the arrays [D]
    (distances) and [I] (labels), one row of [k] slots per query. *)
Definition search (index : IndexFlatL2) (x : ndarray) (k : nat)
  : result (list (list Q) * list (list Z)) :=
  match unpack_shape x with
  | Raise e => Raise e
  | Ok (_, dx) =>
      if negb (Nat.eqb dx (index_d index)) then Raise AssertionError
      else if Nat.eqb k 0 then Raise AssertionError
      else
        let slots := map (fun q => knn k q (index_xb index)) (rows_of x) in
        Ok (map (map fst) slots, map (map snd) slots)
  end.

(** A candidate refers to a stored vector when its label is the position
    of a vector of [xb] and its distance is that vector's distance to the
    query. *)
Definition refers_to (q : vec) (xb : list vec) (c : candidate) : Prop :=
  exists n v,
    snd c = Z.of_nat n /\ nth_error xb n = Some v /\ fst c = fvec_L2sqr q v.

(** Candidates ordered by distance. *)
Definition closer (a b : candidate) : Prop := (fst a <= fst b)%Q.

(** ** The notebook *)

Section Pipeline.

(** The embedding model: [all-MiniLM-L6-v2] maps a sentence to a vector
    of [dim] floats (384 for that model). *)
Variable dim : nat.
Variable encode1 : string -> vec.

(** [model.encode(sentences)]: one row per sentence, in order. *)
Definition encode (sentences : list string) : ndarray :=
  Array2 dim (map encode1 sentences).

(** Step 3 *)
Definition chunk_and_embed_text (text : string) : list string * ndarray :=
  let chunks := split text in
  let embeddings := encode chunks in
  (chunks, embeddings).

(** Step 4 *)
Definition create_faiss_index (embeddings : ndarray) : result IndexFlatL2 :=
  d <- shape_getitem embeddings 1 ;;
  let index := new_IndexFlatL2 d in
  add index embeddings.

(** Step 5 *)
Definition search_query (query : string) (index : IndexFlatL2)
    (chunks : list string) : result (list string) :=
  let query_embedding := encode [query] in
  DI <- search index query_embedding 5 ;;
  let '(D_, I_) := DI in
  row <- getitem I_ 0 ;;
  mapM (fun i => getitem chunks i) row.

(** Example usage: text to retrieved chunks. *)
Definition example_usage (pdf_text : string) (user_query : string)
  : result (list string) :=
  let '(pdf_chunks, pdf_embeddings) := chunk_and_embed_text pdf_text in
  index <- create_faiss_index pdf_embeddings ;;
  search_query user_query index pdf_chunks.

End Pipeline.

(** ** Notions used to state the facts *)

(** The chunk a non-negative position denotes. *)
Definition chunk_at (chunks : list string) (i : Z) : string :=
  nth (Z.to_nat i) chunks EmptyString.

(** The labels of the filled slots of the search [search_query] runs for
    [query]: positions of stored vectors, nearest first. *)
Definition hits (encode1 : string -> vec) (query : string)
    (index : IndexFlatL2) : list Z :=
  map snd (firstn 5 (by_distance
                       (filter admitted
                          (candidates (encode1 query) (index_xb index))))).


(** Whether the vectors all have the same number of entries. *)
Definition shares_width (rows : list vec) : Prop :=
  forall v w, In v rows -> In w rows -> List.length v = List.length w.

(** The rows [D[0]] and [I[0]] of that search. *)
Definition distances (encode1 : string -> vec) (query : string)
    (index : IndexFlatL2) : list Q :=
  map fst (knn 5 (encode1 query) (index_xb index)).

Definition labels (encode1 : string -> vec) (query : string)
    (index : IndexFlatL2) : list Z :=
  map snd (knn 5 (encode1 query) (index_xb index)).

(** A position of the chunk sequence. *)
Definition in_range (n : nat) (i : Z) : Prop := (0 <= i < Z.of_nat n)%Z.

(** ** A small instance

    A two-dimensional encoder (length and first character of the
    sentence) and a three-paragraph document, on which the pipeline can
    be run. *)

Definition toy_dim : nat := 2.

Definition toy_encode1 (s : string) : vec :=
  [ inject_Z (Z.of_nat (String.length s));
    inject_Z (match s with
              | EmptyString => 0
              | String c _ => Z.of_nat (nat_of_ascii c)
              end) ].

Definition greek_chunks : list string :=
  ["alpha"%string; "beta"%string; "gamma"%string].

Definition greek_text : string :=
  ("alpha" ++ sep ++ "beta" ++ sep ++ "gamma")%string.

Definition greek_index : IndexFlatL2 :=
  mkIndex toy_dim (map toy_encode1 greek_chunks).

Definition letter_chunks : list string :=
  ["A"%string; "B"%string; "C"%string; "D"%string; "E"%string].

Definition letter_index : IndexFlatL2 :=
  mkIndex toy_dim (map toy_encode1 letter_chunks).

(** Two one-vector indexes over different vectors. *)
Definition empty_index : IndexFlatL2 :=
  mkIndex toy_dim [toy_encode1 EmptyString].

Definition comma_index : IndexFlatL2 :=
  mkIndex toy_dim [toy_encode1 ","%string].

(** A 1-D object array holding two sequences of different lengths. *)
Definition ragged : ndarray := Array1 [[1%Q; 2%Q]; [3%Q]].

(** ** PDF extraction (steps 1 and 2)

    The two PDF libraries are parameters.  Opening a path gives the
    pages in document order, or raises; reaching a page and reading its
    text, or its tables, gives the value, or raises.  [None] is the
    exception, which nothing in the notebook catches. *)

(** A table as [pdfplumber] returns it: rows of cells, [None] for an
    empty cell. *)
Definition table : Type := list (list (option string)).

Section Extraction.

Variable fitz_page : Type.
Variable fitz_open : string -> option (list fitz_page).
Variable get_text : fitz_page -> option string.

Variable plumber_page : Type.
Variable pdfplumber_open : string -> option (list plumber_page).
Variable extract_tables : plumber_page -> option (list table).

(** The loop of step 1 once [text] holds what was read so far:
    [text += page.get_text()] for each page that is left. *)
Fixpoint read_pages (text : string) (doc : list fitz_page) : option string :=
  match doc with
  | [] => Some text
  | page :: rest =>
      match get_text page with
      | None => None
      | Some page_text => read_pages (text ++ page_text)%string rest
      end
  end.

(** Step 1 *)
Definition extract_text_from_pdf (pdf_path : string) : option string :=
  match fitz_open pdf_path with
  | None => None
  | Some doc => read_pages EmptyString doc
  end.

(** The loop of step 2 once [tables] holds what was read so far:
    [tables.append(page.extract_tables())] for each page that is left. *)
Fixpoint read_tables (tables : list (list table)) (pages : list plumber_page)
  : option (list (list table)) :=
  match pages with
  | [] => Some tables
  | page :: rest =>
      match extract_tables page with
      | None => None
      | Some page_tables => read_tables (tables ++ [page_tables]) rest
      end
  end.

(** Step 2 *)
Definition extract_tables_from_pdf (pdf_path : string)
  : option (list (list table)) :=
  match pdfplumber_open pdf_path with
  | None => None
  | Some pages => read_tables [] pages
  end.

End Extraction.

(** The strings of a list one after the other. *)
Definition concat_texts (texts : list string) : string :=
  fold_right String.append EmptyString texts.

(** Whether the scan of [count] leaves the last character of the string,
    a newline, outside any separator. *)
Fixpoint pending (s : string) : bool :=
  match s with
  | EmptyString => false
  | String c1 rest =>
      match rest with
      | String c2 rest' =>
          if (is_nl c1 && is_nl c2)%bool then pending rest' else pending rest
      | EmptyString => is_nl c1
      end
  end.

(** The string without its first character. *)
Definition tail (s : string) : string :=
  match s with
  | EmptyString => EmptyString
  | String _ s' => s'
  end.

(** The labels of a row that denote a stored vector: the filled slots. *)
Definition filled (row : list Z) : list Z :=
  filter (fun l => (0 <=? l)%Z) row.

(** A label that [chunks[l]] accepts. *)
Definition indexable (n : nat) (l : Z) : Prop :=
  (- Z.of_nat n <= l < Z.of_nat n)%Z.

(** Two documents for the small instance.  A page is its text, or
    [None] when it cannot be read; it holds one one-cell table. *)
Definition toy_pages : list (option string) :=
  [Some ("alpha" ++ String nl EmptyString)%string;
   Some (String nl EmptyString ++ "beta" ++ sep ++ "gamma")%string].

Definition broken_pages : list (option string) :=
  [Some "alpha"%string; None; Some "gamma"%string].

Definition toy_open (pdf_path : string) : option (list (option string)) :=
  if String.eqb pdf_path "greek.pdf" then Some toy_pages
  else if String.eqb pdf_path "broken.pdf" then Some broken_pages
  else None.

Definition toy_get_text (page : option string) : option string := page.

Definition toy_extract_tables (page : option string) : option (list table) :=
  match page with
  | None => None
  | Some page_text => Some [[[Some page_text]]]
  end.

(** * Facts *)

(** ** Splitting *)

Lemma append_empty_r (s : string) : (s ++ EmptyString)%string = s.
Proof. induction s as [|c s IH]; simpl; [reflexivity | now rewrite IH]. Qed.

Lemma append_assoc (a b c : string) :
  ((a ++ b) ++ c)%string = (a ++ (b ++ c))%string.
Proof. induction a as [|x a IH]; simpl; [reflexivity | now rewrite IH]. Qed.

Lemma append_char (cur : string) (c : ascii) (s : string) :
  ((cur ++ String c EmptyString) ++ s)%string = (cur ++ String c s)%string.
Proof. now rewrite append_assoc. Qed.

Lemma join_cons (p : string) (ps : list string) :
  ps <> [] -> join (p :: ps) = (p ++ sep ++ join ps)%string.
Proof. destruct ps; [congruence | reflexivity]. Qed.

Lemma split_from_nonempty (s cur : string) : split_from cur s <> [].
Proof.
  revert cur.
  induction s as [|c1 rest IH]; intro cur; simpl; [discriminate|].
  destruct rest as [|c2 rest']; [discriminate|].
  destruct (is_nl c1 && is_nl c2)%bool; [discriminate | apply IH].
Qed.

Lemma is_nl_true (c : ascii) : is_nl c = true -> c = nl.
Proof. unfold is_nl. apply Ascii.eqb_eq. Qed.

(** The scan is described for every string no longer than [n]; the
    separator case steps over two characters at once. *)
Lemma split_from_spec (n : nat) :
  forall s cur, String.length s <= n ->
    List.length (split_from cur s) = S (count s) /\
    join (split_from cur s) = (cur ++ s)%string.
Proof.
  induction n as [|n IH]; intros s cur Hlen.
  - destruct s; simpl in Hlen; [|lia].
    simpl. now rewrite append_empty_r.
  - destruct s as [|c1 rest]; [simpl; now rewrite append_empty_r|].
    destruct rest as [|c2 rest']; [simpl; auto|].
    simpl in Hlen.
    change (split_from cur (String c1 (String c2 rest'))) with
      (if (is_nl c1 && is_nl c2)%bool
       then cur :: split_from EmptyString rest'
       else split_from (cur ++ String c1 EmptyString)%string (String c2 rest')).
    change (count (String c1 (String c2 rest'))) with
      (if (is_nl c1 && is_nl c2)%bool then S (count rest')
       else count (String c2 rest')).
    destruct (is_nl c1 && is_nl c2)%bool eqn:E.
    + apply andb_true_iff in E. destruct E as [E1 E2].
      apply is_nl_true in E1, E2. subst c1 c2.
      destruct (IH rest' EmptyString) as [L J]; [lia|].
      split.
      * simpl List.length. now rewrite L.
      * rewrite join_cons by apply split_from_nonempty.
        rewrite J. reflexivity.
    + destruct (IH (String c2 rest') (cur ++ String c1 EmptyString)%string)
        as [L J]; [simpl; lia|].
      split; [exact L|].
      rewrite J. apply append_char.
Qed.

Lemma split_length (text : string) :
  List.length (split text) = S (count text).
Proof. apply (split_from_spec (String.length text)). lia. Qed.

Lemma split_join (text : string) : join (split text) = text.
Proof.
  unfold split.
  now destruct (split_from_spec (String.length text) text EmptyString (le_n _)).
Qed.

Lemma split_sep (text : string) :
  split (sep ++ text)%string = EmptyString :: split text.
Proof. reflexivity. Qed.

Lemma ends_nl_append (cur : string) (c : ascii) :
  ends_nl (cur ++ String c EmptyString) = is_nl c.
Proof.
  induction cur as [|a cur IH]; [reflexivity|].
  destruct cur as [|b cur]; [reflexivity|].
  exact IH.
Qed.

(** A character appended to a separator-free string completes no
    separator unless both it and the last character are newlines. *)
Lemma count_append (cur : string) (c : ascii) :
  count cur = 0 -> (ends_nl cur && is_nl c)%bool = false ->
  count (cur ++ String c EmptyString) = 0.
Proof.
  induction cur as [|a cur IH]; intros Hc He; [reflexivity|].
  destruct cur as [|b cur].
  - simpl in *. now rewrite He.
  - change (count (String a (String b cur))) with
      (if (is_nl a && is_nl b)%bool then S (count cur)
       else count (String b cur)) in Hc.
    change (count (String a (String b cur) ++ String c EmptyString)) with
      (if (is_nl a && is_nl b)%bool
       then S (count (cur ++ String c EmptyString))
       else count (String b cur ++ String c EmptyString)).
    destruct (is_nl a && is_nl b)%bool; [discriminate|].
    apply IH; assumption.
Qed.

(** The pieces of the scan hold no separator, provided the piece under
    construction holds none and cannot complete one with what follows. *)
Lemma split_from_pieces (n : nat) :
  forall s cur, String.length s <= n ->
    count cur = 0 -> (ends_nl cur && starts_nl s)%bool = false ->
    Forall (fun piece => count piece = 0) (split_from cur s).
Proof.
  induction n as [|n IH]; intros s cur Hlen Hc He.
  - destruct s; simpl in Hlen; [|lia]. simpl. auto.
  - destruct s as [|c1 rest]; [simpl; auto|].
    destruct rest as [|c2 rest'].
    + simpl. constructor; [|constructor]. now apply count_append.
    + simpl in Hlen.
      change (split_from cur (String c1 (String c2 rest'))) with
        (if (is_nl c1 && is_nl c2)%bool
         then cur :: split_from EmptyString rest'
         else split_from (cur ++ String c1 EmptyString)%string (String c2 rest')).
      destruct (is_nl c1 && is_nl c2)%bool eqn:E.
      * constructor; [exact Hc|]. apply IH; [lia | reflexivity | reflexivity].
      * apply IH; [simpl; lia | now apply count_append |].
        rewrite ends_nl_append. exact E.
Qed.

Lemma split_pieces (text : string) :
  Forall (fun piece => count piece = 0) (split text).
Proof.
  apply (split_from_pieces (String.length text)); [lia | reflexivity | reflexivity].
Qed.

(** Three newlines hold one separator, found at the left, and a newline
    is left over: overlapping matches are not counted. *)
Example split_three_newlines :
  split (String nl sep) = [EmptyString; String nl EmptyString] /\
  count (String nl sep) = 1.
Proof. split; reflexivity. Qed.

(** C4: [text.split("\n\n")] yields one chunk more than the text has
    separators (counted as [str.count] does); the chunks are what lies
    between the separators (no chunk holds a separator, and joining the
    chunks with the separator gives the text back); and the empty chunk
    that a separator with nothing before it delimits is kept, so
    consecutive separators give zero-length chunks. *)
Theorem chunk_count (dim : nat) (encode1 : string -> vec) (text : string) :
  let chunks := fst (chunk_and_embed_text dim encode1 text) in
  chunks = split text /\
  List.length chunks = count text + 1 /\
  join chunks = text /\
  Forall (fun chunk => count chunk = 0) chunks /\
  split (sep ++ text)%string = EmptyString :: split text /\
  split (sep ++ sep ++ text)%string = EmptyString :: EmptyString :: split text.
Proof.
  change (fst (chunk_and_embed_text dim encode1 text)) with (split text).
  cbv zeta. rewrite split_length, split_join.
  repeat split; [lia | apply split_pieces].
Qed.

(** ** Indexing and the comprehension *)

Lemma getitem_nat {A : Type} (l : list A) (n : nat) (a : A) :
  nth_error l n = Some a -> getitem l (Z.of_nat n) = Ok a.
Proof.
  intro H. unfold getitem.
  assert (n < List.length l) by (apply nth_error_Some; congruence).
  destruct (Z.of_nat n <? 0)%Z eqn:E; [apply Z.ltb_lt in E; lia|].
  replace ((0 <=? Z.of_nat n)%Z && (Z.of_nat n <? Z.of_nat (List.length l))%Z)%bool
    with true.
  - now rewrite Nat2Z.id, H.
  - symmetry. apply andb_true_iff. split; [apply Z.leb_le | apply Z.ltb_lt]; lia.
Qed.

Lemma getitem_last {A : Type} (l : list A) (dflt : A) :
  l <> [] -> getitem l no_label = Ok (last l dflt).
Proof.
  intro Hne. unfold getitem, no_label.
  assert (Hlen : 0 < List.length l) by (destruct l; simpl; [congruence | lia]).
  change (-1 <? 0)%Z with true. cbv iota.
  replace ((0 <=? -1 + Z.of_nat (List.length l))%Z &&
           (-1 + Z.of_nat (List.length l) <? Z.of_nat (List.length l))%Z)%bool
    with true
    by (symmetry; apply andb_true_iff; split; [apply Z.leb_le | apply Z.ltb_lt]; lia).
  replace (Z.to_nat (-1 + Z.of_nat (List.length l))) with (List.length l - 1) by lia.
  destruct (exists_last Hne) as [l' [a ->]].
  rewrite last_last, length_app. simpl.
  rewrite nth_error_app2 by lia.
  replace (List.length l' + 1 - 1 - List.length l') with 0 by lia.
  reflexivity.
Qed.

Lemma getitem_range {A : Type} (l : list A) (i : Z) (a : A) :
  getitem l i = Ok a ->
  (- Z.of_nat (List.length l) <= i < Z.of_nat (List.length l))%Z.
Proof.
  unfold getitem.
  destruct (i <? 0)%Z eqn:E;
    [apply Z.ltb_lt in E | apply Z.ltb_ge in E];
    match goal with
    | |- context [(?a && ?b)%bool] => destruct (a && b)%bool eqn:R
    end; try discriminate;
    apply andb_true_iff in R; destruct R as [R1 R2];
    apply Z.leb_le in R1; apply Z.ltb_lt in R2; intros _; lia.
Qed.

Lemma getitem_nil {A : Type} (i : Z) : getitem (@nil A) i = Raise IndexError.
Proof.
  unfold getitem. simpl.
  destruct (i <? 0)%Z eqn:E;
    [apply Z.ltb_lt in E | apply Z.ltb_ge in E];
    match goal with
    | |- context [(?a && ?b)%bool] => destruct (a && b)%bool eqn:R
    end; try reflexivity;
    apply andb_true_iff in R; destruct R as [R1 R2];
    apply Z.leb_le in R1; apply Z.ltb_lt in R2; lia.
Qed.

Lemma mapM_length {A B : Type} (f : A -> result B) (l : list A) (r : list B) :
  mapM f l = Ok r -> List.length r = List.length l.
Proof.
  revert r. induction l as [|a l IH]; intros r H; simpl in H.
  - now inversion H.
  - destruct (f a); simpl in H; [|discriminate].
    destruct (mapM f l); simpl in H; [|discriminate].
    inversion H. simpl. now rewrite (IH _ eq_refl).
Qed.

Lemma mapM_app {A B : Type} (f : A -> result B) (l1 l2 : list A)
    (r1 r2 : list B) :
  mapM f l1 = Ok r1 -> mapM f l2 = Ok r2 -> mapM f (l1 ++ l2) = Ok (r1 ++ r2).
Proof.
  revert r1. induction l1 as [|a l1 IH]; intros r1 H1 H2; simpl in *.
  - inversion H1. exact H2.
  - destruct (f a); simpl in *; [|discriminate].
    destruct (mapM f l1); simpl in *; [|discriminate].
    inversion H1. now rewrite (IH _ eq_refl H2).
Qed.

Lemma mapM_repeat {A B : Type} (f : A -> result B) (a : A) (b : B) (n : nat) :
  f a = Ok b -> mapM f (repeat a n) = Ok (repeat b n).
Proof.
  intro H. induction n as [|n IH]; simpl; [reflexivity|].
  now rewrite H, IH.
Qed.

Lemma mapM_map {A B : Type} (f : A -> result B) (g : A -> B) (l : list A) :
  Forall (fun a => f a = Ok (g a)) l -> mapM f l = Ok (map g l).
Proof.
  induction 1 as [|a l Ha _ IH]; simpl; [reflexivity|].
  now rewrite Ha, IH.
Qed.

Lemma mapM_nth_error {A B : Type} (f : A -> result B) (l : list A)
    (r : list B) (j : nat) (a : A) :
  mapM f l = Ok r -> nth_error l j = Some a ->
  exists b, f a = Ok b /\ nth_error r j = Some b.
Proof.
  revert r j. induction l as [|x l IH]; intros r j H Hj.
  - destruct j; discriminate.
  - simpl in H.
    destruct (f x) as [b|] eqn:Fx; simpl in H; [|discriminate].
    destruct (mapM f l) as [bs|] eqn:M; simpl in H; [|discriminate].
    inversion H; subst r.
    destruct j as [|j]; simpl in *.
    + inversion Hj; subst. eauto.
    + eapply IH; eauto.
Qed.

Lemma mapM_nth_error_In {A B : Type} (f : A -> result B) (l : list A)
    (r : list B) (a : A) :
  mapM f l = Ok r -> In a l -> exists b, f a = Ok b.
Proof.
  intros H Ha. apply In_nth_error in Ha. destruct Ha as [j Hj].
  destruct (mapM_nth_error _ _ _ _ _ H Hj) as (b & Hb & _). eauto.
Qed.

Lemma mapM_nil_raises {A : Type} (row : list Z) :
  row <> [] -> mapM (fun i => getitem (@nil A) i) row = Raise IndexError.
Proof.
  destruct row as [|i row]; [congruence|]. intros _.
  simpl. now rewrite getitem_nil.
Qed.

(** ** Exhaustive search *)

Lemma Qsquare_nonneg (a : Q) : (0 <= a * a)%Q.
Proof.
  destruct a as [n d]. unfold Qle, Qmult. simpl.
  rewrite Z.mul_1_r. apply Z.square_nonneg.
Qed.

Lemma fvec_L2sqr_nonneg (x y : vec) : (0 <= fvec_L2sqr x y)%Q.
Proof.
  unfold fvec_L2sqr.
  induction (combine x y) as [|p l IH]; simpl; [apply Qle_refl|].
  pose proof (Qsquare_nonneg (fst p - snd p)).
  lra.
Qed.

Lemma fvec_L2sqr_self (x : vec) : (fvec_L2sqr x x == 0)%Q.
Proof.
  unfold fvec_L2sqr.
  induction x as [|a x IH]; simpl; [reflexivity|].
  rewrite IH. ring.
Qed.

Lemma candidates_length (q : vec) (xb : list vec) :
  List.length (candidates q xb) = List.length xb.
Proof.
  unfold candidates.
  rewrite length_combine, !length_map, length_seq. lia.
Qed.

Lemma combine_seq_In (f : vec -> Q) (xb : list vec) (s : nat) (c : candidate) :
  In c (combine (map f xb) (map Z.of_nat (seq s (List.length xb)))) ->
  exists n v,
    snd c = Z.of_nat (s + n) /\ nth_error xb n = Some v /\ fst c = f v.
Proof.
  revert s. induction xb as [|v xb IH]; intros s H; simpl in H; [contradiction|].
  destruct H as [<- | H].
  - exists 0, v. simpl. rewrite Nat.add_0_r. auto.
  - destruct (IH _ H) as (n & w & Hs & Hn & Hf).
    exists (S n), w. rewrite Hs. repeat split; auto; f_equal; lia.
Qed.

Lemma combine_seq_nth (f : vec -> Q) (xb : list vec) (s n : nat) (v : vec) :
  nth_error xb n = Some v ->
  nth_error (combine (map f xb) (map Z.of_nat (seq s (List.length xb)))) n
  = Some (f v, Z.of_nat (s + n)).
Proof.
  revert s n. induction xb as [|w xb IH]; intros s n H.
  - destruct n; discriminate.
  - destruct n as [|n]; simpl in *.
    + inversion H. now rewrite Nat.add_0_r.
    + rewrite (IH (S s) n H). do 3 f_equal. lia.
Qed.

Lemma candidates_refer (q : vec) (xb : list vec) :
  Forall (refers_to q xb) (candidates q xb).
Proof.
  apply Forall_forall. intros c H.
  destruct (combine_seq_In _ _ _ _ H) as (n & v & Hs & Hn & Hf).
  now exists n, v.
Qed.

Lemma candidates_nth (q : vec) (xb : list vec) (n : nat) (v : vec) :
  nth_error xb n = Some v ->
  nth_error (candidates q xb) n = Some (fvec_L2sqr q v, Z.of_nat n).
Proof. intro H. apply (combine_seq_nth _ _ 0 _ _ H). Qed.

Lemma insert_perm (c : candidate) (l : list candidate) :
  Permutation (insert c l) (c :: l).
Proof.
  induction l as [|h t IH]; simpl; [reflexivity|].
  destruct (Qle_bool (fst c) (fst h)); [reflexivity|].
  rewrite IH. apply perm_swap.
Qed.

Lemma by_distance_perm (l : list candidate) : Permutation (by_distance l) l.
Proof.
  induction l as [|c l IH]; simpl; [reflexivity|].
  rewrite insert_perm. now apply perm_skip.
Qed.

Lemma by_distance_length (l : list candidate) :
  List.length (by_distance l) = List.length l.
Proof. apply Permutation_length, by_distance_perm. Qed.

Lemma insert_sorted (c : candidate) (l : list candidate) :
  StronglySorted closer l -> StronglySorted closer (insert c l).
Proof.
  induction 1 as [|h t Hs IH Hh]; simpl.
  - repeat constructor.
  - destruct (Qle_bool (fst c) (fst h)) eqn:E.
    + apply Qle_bool_iff in E.
      constructor; [now constructor|].
      constructor; [exact E|].
      eapply Forall_impl; [|exact Hh].
      intros a Ha. unfold closer in *. lra.
    + assert (Hlt : (fst h < fst c)%Q).
      { apply Qnot_le_lt. intro Hle. apply Qle_bool_iff in Hle. congruence. }
      constructor; [exact IH|].
      apply (Permutation_Forall (Permutation_sym (insert_perm c t))).
      constructor; [unfold closer; lra | exact Hh].
Qed.

Lemma by_distance_sorted (l : list candidate) :
  StronglySorted closer (by_distance l).
Proof.
  induction l as [|c l IH]; simpl; [constructor | now apply insert_sorted].
Qed.

(** A candidate at least as close as all that follow stays in front. *)
Lemma by_distance_head (c : candidate) (l : list candidate) :
  Forall (closer c) l -> by_distance (c :: l) = c :: by_distance l.
Proof.
  intro H. simpl.
  assert (H' : Forall (closer c) (by_distance l))
    by (apply (Permutation_Forall (Permutation_sym (by_distance_perm l))), H).
  destruct (by_distance l) as [|h t]; [reflexivity|]. simpl.
  apply Forall_cons_iff in H'. destruct H' as [Hh _].
  apply Qle_bool_iff in Hh. now rewrite Hh.
Qed.

Lemma Forall_firstn_of {A : Type} (P : A -> Prop) (n : nat) (l : list A) :
  Forall P l -> Forall P (firstn n l).
Proof.
  intro H. rewrite <- (firstn_skipn n l) in H.
  now apply Forall_app in H.
Qed.

Lemma knn_length (k : nat) (q : vec) (xb : list vec) :
  List.length (knn k q xb) = k.
Proof.
  unfold knn. rewrite length_app, repeat_length, length_firstn. lia.
Qed.

Lemma admitted_below (c : Q * Z) :
  admitted c = true <-> (fst c < flt_max)%Q.
Proof.
  unfold admitted. rewrite negb_true_iff. split.
  - intro H. apply Qnot_le_lt. intro Hle.
    apply Qle_bool_iff in Hle. congruence.
  - intro H. destruct (Qle_bool flt_max (fst c)) eqn:E; [|reflexivity].
    apply Qle_bool_iff in E. apply Qlt_not_le in H. contradiction.
Qed.

Lemma Forall_filter_of {A : Type} (P : A -> Prop) (f : A -> bool) (l : list A) :
  Forall P l -> Forall P (filter f l).
Proof.
  intro H. apply Forall_forall. intros x Hx.
  apply filter_In in Hx. apply (proj1 (Forall_forall _ _) H), Hx.
Qed.

(** The slots of a query: at most [min k m] hits, each referring to a
    stored vector, then unfilled slots. *)
Lemma knn_slots (k : nat) (q : vec) (xb : list vec) :
  let hits := firstn k (by_distance (filter admitted (candidates q xb))) in
  knn k q xb = hits ++ repeat (flt_max, no_label) (k - List.length hits) /\
  List.length hits <= Nat.min k (List.length xb) /\
  Forall (refers_to q xb) hits.
Proof.
  intro hits. repeat split.
  - unfold hits.
    rewrite length_firstn, by_distance_length.
    pose proof (filter_length_le admitted (candidates q xb)) as H.
    rewrite candidates_length in H. lia.
  - apply Forall_firstn_of.
    apply (Permutation_Forall (Permutation_sym (by_distance_perm _))).
    apply Forall_filter_of, candidates_refer.
Qed.

(** With room for every stored vector, each admitted one is a hit. *)
Lemma knn_all (k : nat) (q : vec) (xb : list vec) (n : nat) (v : vec) :
  List.length xb <= k -> nth_error xb n = Some v ->
  (fvec_L2sqr q v < flt_max)%Q ->
  In (fvec_L2sqr q v, Z.of_nat n) (knn k q xb).
Proof.
  intros Hk Hn Hd. unfold knn. apply in_or_app. left.
  rewrite firstn_all2.
  - apply (Permutation_in _ (Permutation_sym (by_distance_perm _))).
    apply filter_In. split.
    + eapply nth_error_In, candidates_nth, Hn.
    + now apply admitted_below.
  - rewrite by_distance_length.
    pose proof (filter_length_le admitted (candidates q xb)) as H.
    rewrite candidates_length in H. lia.
Qed.

Lemma zero_below_flt_max (d : Q) : (d == 0)%Q -> (d < flt_max)%Q.
Proof. intro H. rewrite H. reflexivity. Qed.

Lemma refers_to_label (q : vec) (xb : list vec) (c : candidate) :
  refers_to q xb c -> (0 <= snd c < Z.of_nat (List.length xb))%Z.
Proof.
  intros (n & v & Hs & Hn & _). rewrite Hs.
  assert (n < List.length xb) by (apply nth_error_Some; congruence). lia.
Qed.

(** ** The query resolver *)

Section Resolver.

Variable dim : nat.
Variable encode1 : string -> vec.

Lemma search_rows (query : string) (index : IndexFlatL2) :
  index_d index = dim ->
  search index (encode dim encode1 [query]) 5
  = Ok ([distances encode1 query index], [labels encode1 query index]).
Proof.
  intro Hd. unfold search, encode. simpl.
  rewrite Hd, Nat.eqb_refl. reflexivity.
Qed.

Lemma search_width (query : string) (index : IndexFlatL2) (k : nat) :
  index_d index <> dim ->
  search index (encode dim encode1 [query]) k = Raise AssertionError.
Proof.
  intro Hd. unfold search, encode. simpl.
  destruct (Nat.eqb dim (index_d index)) eqn:E; [|reflexivity].
  apply Nat.eqb_eq in E. congruence.
Qed.

Lemma search_query_gathers (query : string) (index : IndexFlatL2)
    (chunks : list string) :
  index_d index = dim ->
  search_query dim encode1 query index chunks
  = mapM (fun i => getitem chunks i) (labels encode1 query index).
Proof.
  intro Hd. unfold search_query. now rewrite (search_rows _ _ Hd).
Qed.

Lemma labels_length (query : string) (index : IndexFlatL2) :
  List.length (labels encode1 query index) = 5.
Proof. unfold labels. now rewrite length_map, knn_length. Qed.

Lemma labels_slots (query : string) (index : IndexFlatL2) :
  labels encode1 query index
  = hits encode1 query index
    ++ repeat no_label (5 - List.length (hits encode1 query index)) /\
  List.length (hits encode1 query index) <= Nat.min 5 (ntotal index) /\
  Forall (in_range (ntotal index)) (hits encode1 query index).
Proof.
  destruct (knn_slots 5 (encode1 query) (index_xb index)) as (E & L & F).
  unfold labels, hits, ntotal. repeat split.
  - rewrite E, map_app, map_repeat, length_map. reflexivity.
  - now rewrite length_map.
  - apply Forall_map. eapply Forall_impl; [|exact F].
    intros c Hc. now apply refers_to_label in Hc.
Qed.

Lemma getitem_in_range (chunks : list string) (n : nat) (i : Z) :
  n <= List.length chunks -> in_range n i ->
  getitem chunks i = Ok (chunk_at chunks i).
Proof.
  intros Hn [H0 Hi]. rewrite <- (Z2Nat.id i) at 1 by exact H0.
  apply getitem_nat. unfold chunk_at.
  apply nth_error_nth'. lia.
Qed.

Lemma gather_hits (chunks : list string) (n : nat) (l : list Z) :
  n <= List.length chunks -> Forall (in_range n) l ->
  mapM (fun i => getitem chunks i) l = Ok (map (chunk_at chunks) l).
Proof.
  intros Hn Hl. apply mapM_map.
  eapply Forall_impl; [|exact Hl].
  intros i Hi. now apply (getitem_in_range chunks n).
Qed.

(** What the call returns as soon as the chunk sequence covers the
    index and can resolve an unfilled slot. *)
Lemma search_query_value (query : string) (index : IndexFlatL2)
    (chunks : list string) :
  index_d index = dim ->
  ntotal index <= List.length chunks ->
  chunks <> [] ->
  search_query dim encode1 query index chunks
  = Ok (map (chunk_at chunks) (hits encode1 query index)
        ++ repeat (last chunks EmptyString)
             (5 - List.length (hits encode1 query index))).
Proof.
  intros Hd Hm Hne.
  rewrite (search_query_gathers _ _ _ Hd).
  destruct (labels_slots query index) as (E & _ & F).
  rewrite E at 1. apply mapM_app.
  - now apply (gather_hits chunks (ntotal index)).
  - apply mapM_repeat. now apply getitem_last.
Qed.

Lemma search_query_length (query : string) (index : IndexFlatL2)
    (chunks res : list string) :
  search_query dim encode1 query index chunks = Ok res ->
  List.length res = 5.
Proof.
  intro H.
  destruct (Nat.eq_dec (index_d index) dim) as [Hd | Hd].
  - rewrite (search_query_gathers _ _ _ Hd) in H.
    apply mapM_length in H. now rewrite H, labels_length.
  - unfold search_query in H. rewrite (search_width _ _ _ Hd) in H.
    discriminate.
Qed.

End Resolver.

(** ** The index builder *)

Lemma create_faiss_index_2d (ncols : nat) (rows : list vec) :
  create_faiss_index (Array2 ncols rows) = Ok (mkIndex ncols rows).
Proof.
  unfold create_faiss_index, shape_getitem, add. simpl.
  now rewrite Nat.eqb_refl.
Qed.

Lemma knn_In_refers (k : nat) (q : vec) (xb : list vec) (c : Q * Z) :
  In c (knn k q xb) -> snd c <> no_label -> refers_to q xb c.
Proof.
  intros Hin Hl.
  destruct (knn_slots k q xb) as (E & _ & F).
  rewrite E in Hin. apply in_app_or in Hin. destruct Hin as [Hin | Hin].
  - eapply Forall_forall in F; eauto.
  - apply repeat_spec in Hin. subst c. now elim Hl.
Qed.

(** A stored vector at distance 0 in the first position fills the first
    slot. *)
Lemma knn_first (k : nat) (q v : vec) (xb : list vec) :
  (fvec_L2sqr q v == 0)%Q ->
  hd_error (knn (S k) q (v :: xb)) = Some (fvec_L2sqr q v, 0%Z).
Proof.
  intro H0. unfold knn, candidates.
  cbn [List.length seq map combine filter]. change (Z.of_nat 0) with 0%Z.
  rewrite (proj2 (admitted_below (fvec_L2sqr q v, 0%Z)))
    by (apply zero_below_flt_max, H0).
  rewrite by_distance_head; [reflexivity|].
  apply Forall_forall. intros c Hc.
  apply filter_In in Hc. destruct Hc as [Hc _].
  destruct (combine_seq_In _ _ _ _ Hc) as (n & w & _ & _ & Hf).
  unfold closer. cbn [fst]. rewrite Hf, H0. apply fvec_L2sqr_nonneg.
Qed.

Lemma firstn_app_length {A : Type} (l1 l2 : list A) :
  firstn (List.length l1) (l1 ++ l2) = l1.
Proof.
  rewrite firstn_app, firstn_all, Nat.sub_diag. simpl. apply app_nil_r.
Qed.

Lemma skipn_app_length {A : Type} (l1 l2 : list A) :
  skipn (List.length l1) (l1 ++ l2) = l2.
Proof.
  rewrite skipn_app, skipn_all, Nat.sub_diag. reflexivity.
Qed.

Lemma in_range_le (m n : nat) (i : Z) : m <= n -> in_range m i -> in_range n i.
Proof. unfold in_range. lia. Qed.

(** ** The claims about the query resolver *)

Lemma labels_marked (encode1 : string -> vec) (query : string)
    (index : IndexFlatL2) :
  Forall (fun l => l = no_label \/ in_range (ntotal index) l)
    (labels encode1 query index).
Proof.
  destruct (labels_slots encode1 query index) as (E & _ & F).
  rewrite E. apply Forall_app. split.
  - eapply Forall_impl; [|exact F]. intros l Hl. now right.
  - apply Forall_forall. intros l Hl. apply repeat_spec in Hl. now left.
Qed.

(** C1 (as amended): [search_query] searches with [k = 5].  For every
    index and every chunk list, a list it returns holds exactly 5 chunk
    strings, read at the 5 labels of the search; and every label it maps
    back into the chunk list is a position of the index that lies in
    [[0, len(chunks))], or else the label [-1] of an unfilled slot. *)
Theorem search_query_size (dim : nat) (encode1 : string -> vec)
    (query : string) (index : IndexFlatL2) (chunks res : list string) :
  search_query dim encode1 query index chunks = Ok res ->
  let row := labels encode1 query index in
  search index (encode dim encode1 [query]) 5
    = Ok ([distances encode1 query index], [row]) /\
  mapM (fun i => getitem chunks i) row = Ok res /\
  List.length row = 5 /\
  List.length res = 5 /\
  Forall (fun l => l = no_label \/
                   (in_range (ntotal index) l /\
                    in_range (List.length chunks) l)) row.
Proof.
  intros H row.
  assert (Hd : index_d index = dim).
  { destruct (Nat.eq_dec (index_d index) dim) as [Hd | Hd]; [exact Hd|].
    unfold search_query in H. rewrite (search_width _ _ _ _ _ Hd) in H.
    discriminate. }
  pose proof H as Hg.
  rewrite (search_query_gathers _ _ _ _ _ Hd) in Hg. fold row in Hg.
  split; [now apply search_rows|].
  split; [exact Hg|].
  split; [apply labels_length|].
  split; [eapply search_query_length, H|].
  apply Forall_forall. intros l Hl.
  pose proof (proj1 (Forall_forall _ _) (labels_marked encode1 query index) l Hl)
    as [Hp | Hr]; [now left | right].
  split; [exact Hr|].
  destruct (mapM_nth_error_In _ _ _ _ Hg Hl) as [b Hb].
  apply getitem_range in Hb. destruct Hr as [H0 _]. split; lia.
Qed.

(** C2 (as amended): [k = 5] exceeding the number of stored vectors is
    no error for [search_query].  For an index of the
    model's width over fewer than 5 vectors and a non-empty chunk list
    that covers it, the call returns a list (of 5 strings); on an empty
    chunk list it raises [IndexError]. *)
Theorem short_index_returns (dim : nat) (encode1 : string -> vec)
    (query : string) (index : IndexFlatL2) (chunks : list string) :
  index_d index = dim ->
  ntotal index < 5 ->
  ntotal index <= List.length chunks ->
  chunks <> [] ->
  (exists res, search_query dim encode1 query index chunks = Ok res /\
               List.length res = 5) /\
  search_query dim encode1 query index [] = Raise IndexError.
Proof.
  intros Hd H5 Hm Hne. split.
  - rewrite (search_query_value dim encode1 query index chunks Hd Hm Hne).
    eexists. split; [reflexivity|].
    eapply search_query_length.
    apply (search_query_value dim encode1 query index chunks Hd Hm Hne).
  - rewrite (search_query_gathers _ _ _ _ _ Hd).
    apply mapM_nil_raises. intro E.
    pose proof (labels_length encode1 query index) as L.
    rewrite E in L. discriminate.
Qed.

(** C10 (as amended): with fewer than 5 vectors in an index of the
    model's width, and a non-empty chunk list that covers the index,
    [search_query] raises nothing: every slot the search fills holds a
    position of the index, the other slots, at least [5 - m] of them,
    hold the label [-1]; [chunks[-1]] is the last chunk; and the call
    returns the chunks found followed by one copy of the last chunk per
    unfilled slot, 5 strings in all. *)
Theorem short_index_pads (dim : nat) (encode1 : string -> vec)
    (query : string) (index : IndexFlatL2) (chunks : list string) :
  index_d index = dim ->
  ntotal index < 5 ->
  ntotal index <= List.length chunks ->
  chunks <> [] ->
  let m := ntotal index in
  let found := hits encode1 query index in
  let unfilled := 5 - List.length found in
  let res := map (chunk_at chunks) found
             ++ repeat (last chunks EmptyString) unfilled in
  search index (encode dim encode1 [query]) 5
    = Ok ([distances encode1 query index], [found ++ repeat no_label unfilled]) /\
  Forall (in_range m) found /\
  5 - m <= unfilled /\
  getitem chunks no_label = Ok (last chunks EmptyString) /\
  search_query dim encode1 query index chunks = Ok res /\
  List.length res = 5.
Proof.
  intros Hd H5 Hm Hne m found unfilled res.
  destruct (labels_slots encode1 query index) as (E & L & F).
  fold m in L, F. fold found in E, L, F. fold unfilled in E.
  repeat split.
  - rewrite <- E. now apply search_rows.
  - exact F.
  - unfold unfilled. lia.
  - now apply getitem_last.
  - now apply search_query_value.
  - unfold res, unfilled. rewrite length_app, length_map, repeat_length. lia.
Qed.

Lemma example_usage_value (dim : nat) (encode1 : string -> vec)
    (text query : string) :
  let chunks := split text in
  let index := mkIndex dim (map encode1 chunks) in
  example_usage dim encode1 text query
  = Ok (map (chunk_at chunks) (hits encode1 query index)
        ++ repeat (last chunks EmptyString)
             (5 - List.length (hits encode1 query index))).
Proof.
  intros chunks index.
  unfold example_usage, chunk_and_embed_text, encode. fold chunks.
  rewrite create_faiss_index_2d. simpl bind. fold index.
  assert (Hn : ntotal index = List.length chunks)
    by (unfold ntotal, index; simpl; apply length_map).
  apply search_query_value.
  - reflexivity.
  - lia.
  - apply split_from_nonempty.
Qed.

(** C5: the resolver searches with the fixed [k = 5]: whatever the
    query, the index and the chunk list, a returned result is the chunks
    at the 5 labels of the first row of a 5-nearest-neighbour search, in
    that order, so it holds exactly 5 entries; and run on the index
    built from any document text the resolver does return such a list,
    however few chunks the text has. *)
Theorem search_query_five (dim : nat) (encode1 : string -> vec)
    (query : string) :
  (forall index chunks res,
     search_query dim encode1 query index chunks = Ok res ->
     exists D_ I_ row,
       search index (encode dim encode1 [query]) 5 = Ok (D_, I_) /\
       getitem I_ 0 = Ok row /\
       List.length row = 5 /\
       mapM (fun i => getitem chunks i) row = Ok res /\
       List.length res = 5) /\
  (forall text,
     exists res, example_usage dim encode1 text query = Ok res /\
                 List.length res = 5).
Proof.
  split.
  - intros index chunks res H.
    pose proof (search_query_length _ _ _ _ _ _ H) as L.
    destruct (Nat.eq_dec (index_d index) dim) as [Hd | Hd].
    + exists [distances encode1 query index], [labels encode1 query index],
        (labels encode1 query index).
      repeat split.
      * now apply search_rows.
      * apply labels_length.
      * now rewrite <- (search_query_gathers _ _ _ _ _ Hd).
      * exact L.
    + unfold search_query in H. rewrite (search_width _ _ _ _ _ Hd) in H.
      discriminate.
  - intro text. rewrite example_usage_value.
    eexists. split; [reflexivity|].
    rewrite length_app, length_map, repeat_length.
    pose proof (labels_slots encode1 query
                  (mkIndex dim (map encode1 (split text)))) as (_ & L & _).
    lia.
Qed.

(** C9: the list [search_query] returns is determined by the first row
    of the labels array and the chunk list: two searches that agree on
    that row give the same result whatever their distance arrays, and
    the result is the chunks read at the labels of that row; it is a
    list of strings, with no distance in it. *)
Theorem distances_discarded (dim : nat) (encode1 : string -> vec)
    (query query' : string) (index index' : IndexFlatL2)
    (chunks : list string) (D_ D_' : list (list Q)) (I_ I_' : list (list Z)) :
  search index (encode dim encode1 [query]) 5 = Ok (D_, I_) ->
  search index' (encode dim encode1 [query']) 5 = Ok (D_', I_') ->
  getitem I_ 0 = getitem I_' 0 ->
  search_query dim encode1 query index chunks
    = (row <- getitem I_ 0 ;; mapM (fun i => getitem chunks i) row) /\
  search_query dim encode1 query index chunks
    = search_query dim encode1 query' index' chunks.
Proof.
  intros H H' Hrow. unfold search_query.
  rewrite H, H'. simpl bind. rewrite Hrow. split; reflexivity.
Qed.

(** ** The claims about embeddings and the index *)

Lemma knn_slot_label (k : nat) (q : vec) (xb : list vec) (j : nat) (l : Z) :
  nth_error (map snd (knn k q xb)) j = Some l ->
  l <> no_label ->
  exists n v,
    l = Z.of_nat n /\ nth_error xb n = Some v /\
    nth_error (map fst (knn k q xb)) j = Some (fvec_L2sqr q v).
Proof.
  intros Hj Hl. rewrite nth_error_map in Hj.
  destruct (nth_error (knn k q xb) j) as [c|] eqn:Ec; [|discriminate].
  simpl in Hj. inversion Hj; subst l.
  destruct (knn_In_refers k q xb c (nth_error_In _ _ Ec) Hl)
    as (n & v & Hs & Hn & Hf).
  exists n, v. repeat split; auto.
  rewrite nth_error_map, Ec. simpl. now rewrite Hf.
Qed.

(** C3: for every text, the embeddings of its chunks form an array of
    [len(chunks)] rows of the model's width, row [i] being the embedding
    of chunk [i]; the index built from it stores exactly these rows; and
    every label of a search on that index other than the unfilled-slot
    marker is a position of the chunk list, whose chunk is the one the
    matched vector was computed from (the distance reported in the slot
    is the distance from the query to that chunk's embedding). *)
Theorem embeddings_aligned (dim : nat) (encode1 : string -> vec)
    (encode1_dim : forall s, List.length (encode1 s) = dim) (text : string) :
  let chunks := fst (chunk_and_embed_text dim encode1 text) in
  let embeddings := snd (chunk_and_embed_text dim encode1 text) in
  shape embeddings = [List.length chunks; dim] /\
  well_formed embeddings /\
  (forall i c, nth_error chunks i = Some c ->
               nth_error (rows_of embeddings) i = Some (encode1 c)) /\
  exists index,
    create_faiss_index embeddings = Ok index /\
    index_d index = dim /\
    index_xb index = rows_of embeddings /\
    forall query,
      search index (encode dim encode1 [query]) 5
        = Ok ([distances encode1 query index], [labels encode1 query index]) /\
      forall j l,
        nth_error (labels encode1 query index) j = Some l ->
        l <> no_label ->
        exists c,
          (0 <= l)%Z /\
          nth_error chunks (Z.to_nat l) = Some c /\
          getitem chunks l = Ok c /\
          nth_error (index_xb index) (Z.to_nat l) = Some (encode1 c) /\
          nth_error (distances encode1 query index) j
            = Some (fvec_L2sqr (encode1 query) (encode1 c)).
Proof.
  cbn [chunk_and_embed_text fst snd]. cbv zeta.
  set (chunks := split text).
  unfold encode at 1 2 3 4. cbn [shape well_formed rows_of].
  split; [now rewrite length_map|].
  split; [apply Forall_map, Forall_forall; intros s _; apply encode1_dim|].
  split; [intros i c Hc; now rewrite nth_error_map, Hc|].
  exists (mkIndex dim (map encode1 chunks)).
  split; [apply create_faiss_index_2d|].
  split; [reflexivity|]. split; [reflexivity|].
  intro query. split; [now apply search_rows|].
  intros j l Hj Hl.
  destruct (knn_slot_label _ _ _ _ _ Hj Hl) as (n & v & -> & Hn & Hd).
  cbn [index_xb] in Hn. rewrite nth_error_map in Hn.
  destruct (nth_error chunks n) as [c|] eqn:Ec; [|discriminate].
  simpl in Hn. inversion Hn; subst v.
  exists c. rewrite Nat2Z.id. repeat split.
  - lia.
  - exact Ec.
  - now apply getitem_nat.
  - cbn [index_xb]. now rewrite nth_error_map, Ec.
  - exact Hd.
Qed.

(** C6: on the index built from the embeddings of the five chunks
    A, B, C, D, E, a query whose vector is the embedding of "C" gets 5
    results, one of which is "C", found at position 2 with squared
    distance 0; and on the index built from the text
    "alpha\n\nbeta\n\ngamma" the query "alpha" gets "alpha" as its first
    result, at distance 0. *)
Theorem self_retrieval (dim : nat) (encode1 : string -> vec) :
  (forall query,
     encode1 query = encode1 "C"%string ->
     exists index res j dist,
       create_faiss_index (encode dim encode1 letter_chunks) = Ok index /\
       search index (encode dim encode1 [query]) 5
         = Ok ([distances encode1 query index], [labels encode1 query index]) /\
       search_query dim encode1 query index letter_chunks = Ok res /\
       List.length res = 5 /\
       nth_error (labels encode1 query index) j = Some 2%Z /\
       nth_error (distances encode1 query index) j = Some dist /\
       (dist == 0)%Q /\
       nth_error res j = Some "C"%string) /\
  (exists embeddings index res dist,
     chunk_and_embed_text dim encode1 greek_text = (greek_chunks, embeddings) /\
     create_faiss_index embeddings = Ok index /\
     search index (encode dim encode1 ["alpha"%string]) 5
       = Ok ([distances encode1 "alpha" index], [labels encode1 "alpha" index]) /\
     search_query dim encode1 "alpha" index greek_chunks = Ok res /\
     hd_error (labels encode1 "alpha" index) = Some 0%Z /\
     hd_error (distances encode1 "alpha" index) = Some dist /\
     (dist == 0)%Q /\
     hd_error res = Some "alpha"%string).
Proof.
  split.
  - intros query Hq.
    set (index := mkIndex dim (map encode1 letter_chunks)).
    assert (Hv : search_query dim encode1 query index letter_chunks
                 = mapM (fun i => getitem letter_chunks i)
                     (labels encode1 query index))
      by now apply search_query_gathers.
    assert (Hin : In (fvec_L2sqr (encode1 query) (encode1 "C"%string), 2%Z)
                    (knn 5 (encode1 query) (index_xb index)))
      by (apply (knn_all 5 _ _ 2);
          [unfold index; simpl; lia | reflexivity |
           apply zero_below_flt_max; rewrite Hq; apply fvec_L2sqr_self]).
    apply In_nth_error in Hin. destruct Hin as [j Hj].
    assert (Hres : exists res,
               search_query dim encode1 query index letter_chunks = Ok res).
    { eexists. apply search_query_value;
        [reflexivity | unfold index, ntotal; simpl; lia |].
      discriminate. }
    destruct Hres as [res Hres].
    assert (Hl : nth_error (labels encode1 query index) j = Some 2%Z)
      by (unfold labels; now rewrite nth_error_map, Hj).
    rewrite Hres in Hv. symmetry in Hv.
    destruct (mapM_nth_error _ _ _ _ _ Hv Hl) as (b & Hb & Hr).
    exists index, res, j, (fvec_L2sqr (encode1 query) (encode1 "C"%string)).
    repeat split.
    + apply create_faiss_index_2d.
    + now apply search_rows.
    + exact Hres.
    + eapply search_query_length, Hres.
    + exact Hl.
    + unfold distances. now rewrite nth_error_map, Hj.
    + rewrite Hq. apply fvec_L2sqr_self.
    + rewrite Hr. f_equal. now inversion Hb.
  - set (index := mkIndex dim (map encode1 greek_chunks)).
    assert (Hk : hd_error (knn 5 (encode1 "alpha"%string) (index_xb index))
                 = Some (fvec_L2sqr (encode1 "alpha"%string)
                           (encode1 "alpha"%string), 0%Z))
      by (apply knn_first, fvec_L2sqr_self).
    assert (Hres : exists res,
               search_query dim encode1 "alpha" index greek_chunks = Ok res).
    { eexists. apply search_query_value;
        [reflexivity | unfold index, ntotal; simpl; lia |].
      discriminate. }
    destruct Hres as [res Hres].
    assert (Hl : nth_error (labels encode1 "alpha" index) 0 = Some 0%Z).
    { unfold labels. rewrite nth_error_map.
      destruct (knn 5 (encode1 "alpha"%string) (index_xb index));
        simpl in *; [discriminate | now inversion Hk]. }
    pose proof (search_query_gathers dim encode1 "alpha" index greek_chunks
                  eq_refl) as Hv.
    rewrite Hres in Hv. symmetry in Hv.
    destruct (mapM_nth_error _ _ _ _ _ Hv Hl) as (b & Hb & Hr).
    exists (encode dim encode1 greek_chunks), index, res,
      (fvec_L2sqr (encode1 "alpha"%string) (encode1 "alpha"%string)).
    repeat split.
    + apply create_faiss_index_2d.
    + now apply search_rows.
    + exact Hres.
    + destruct (labels encode1 "alpha" index); simpl in *; congruence.
    + unfold distances.
      destruct (knn 5 (encode1 "alpha"%string) (index_xb index));
        simpl in *; [discriminate | now inversion Hk].
    + apply fvec_L2sqr_self.
    + destruct res; simpl in *; [discriminate|].
      inversion Hb. congruence.
Qed.

(** C7: [create_faiss_index] sizes the index to [embeddings.shape[1]],
    the number of entries of the first vector, and of every vector, of
    the array; it fails, with an exception, when the vectors do not all
    have the same number of entries; otherwise it inserts all the vectors
    in their order (a 2-D array always succeeds), so that the label of a
    search result is the insertion position of the matched vector, and a
    search with room for all stored vectors finds the vector inserted at
    position [n] under label [n], at distance 0. *)
Theorem create_faiss_index_rows (embeddings : ndarray) :
  well_formed embeddings ->
  (~ shares_width (rows_of embeddings) ->
   exists e, create_faiss_index embeddings = Raise e) /\
  (forall ncols rows, embeddings = Array2 ncols rows ->
     create_faiss_index embeddings = Ok (mkIndex ncols rows)) /\
  (forall index, create_faiss_index embeddings = Ok index ->
     shape_getitem embeddings 1 = Ok (index_d index) /\
     (forall v, hd_error (rows_of embeddings) = Some v ->
                index_d index = List.length v) /\
     index_xb index = rows_of embeddings /\
     (forall q k c,
        In c (knn k q (index_xb index)) -> snd c <> no_label ->
        exists n v, snd c = Z.of_nat n /\
                    nth_error (rows_of embeddings) n = Some v /\
                    fst c = fvec_L2sqr q v) /\
     (forall n v k,
        nth_error (rows_of embeddings) n = Some v -> ntotal index <= k ->
        exists dist, In (dist, Z.of_nat n) (knn k v (index_xb index)) /\
                     (dist == 0)%Q)).
Proof.
  intro Hwf. destruct embeddings as [ncols rows | items].
  - simpl in Hwf. pose proof (proj1 (Forall_forall _ _) Hwf) as Hlen.
    split; [|split].
    + intro Hn. elim Hn. intros v w Hv Hw.
      now rewrite (Hlen v Hv), (Hlen w Hw).
    + intros ncols' rows' E. inversion E; subst.
      apply create_faiss_index_2d.
    + intros index Hi.
      rewrite create_faiss_index_2d in Hi. inversion Hi; subst index.
      cbn [rows_of index_d index_xb].
      split; [reflexivity|].
      split.
      { intros v Hv. symmetry. apply Hlen.
        destruct rows; simpl in Hv; [discriminate|].
        inversion Hv. now left. }
      split; [reflexivity|].
      split.
      * intros q k c Hc Hl. exact (knn_In_refers k q rows c Hc Hl).
      * intros n v k Hn Hk.
        exists (fvec_L2sqr v v).
        split; [|apply fvec_L2sqr_self].
        apply knn_all; [exact Hk | exact Hn |].
        apply zero_below_flt_max, fvec_L2sqr_self.
  - split; [|split].
    + intros _. exists IndexError. reflexivity.
    + intros ncols rows E. discriminate.
    + intros index Hi. discriminate.
Qed.


(** ** The claims on the small instance *)

(** C1, as stated, fails on three chunks: the call returns 5 strings,
    not [min 5 3], and two of them through the label [-1]. *)
Lemma three_chunks_five_results :
  create_faiss_index (encode toy_dim toy_encode1 greek_chunks) = Ok greek_index /\
  ntotal greek_index = 3 /\
  List.length greek_chunks = 3 /\
  labels toy_encode1 "alpha" greek_index = [0; 1; 2; -1; -1]%Z /\
  search_query toy_dim toy_encode1 "alpha" greek_index greek_chunks
    = Ok ["alpha"; "beta"; "gamma"; "gamma"; "gamma"]%string /\
  ~ (forall res,
       search_query toy_dim toy_encode1 "alpha" greek_index greek_chunks = Ok res ->
       List.length res = Nat.min 5 (ntotal greek_index) /\
       Forall (in_range (List.length greek_chunks))
         (labels toy_encode1 "alpha" greek_index)).
Proof.
  repeat split.
  intro H. destruct (H _ eq_refl) as [H5 _]. vm_compute in H5. discriminate.
Qed.

(** C2, as stated, fails on three chunks: 5 exceeds the 3 stored
    vectors and the call returns a list. *)
Lemma three_chunks_no_error :
  ntotal greek_index = 3 /\
  search_query toy_dim toy_encode1 "beta" greek_index greek_chunks
    = Ok ["beta"; "alpha"; "gamma"; "gamma"; "gamma"]%string /\
  forall e,
    search_query toy_dim toy_encode1 "beta" greek_index greek_chunks <> Raise e.
Proof.
  repeat split. intros e H. vm_compute in H. discriminate.
Qed.


(** C10, as stated, fails when the chunk list does not cover the index:
    three vectors, fewer than 5, and two chunks raise [IndexError]; so
    does the empty index with the empty chunk list. *)
Lemma three_vectors_two_chunks :
  ntotal greek_index = 3 /\
  search_query toy_dim toy_encode1 "alpha" greek_index
    ["alpha"; "beta"]%string = Raise IndexError /\
  ntotal (mkIndex toy_dim []) = 0 /\
  search_query toy_dim toy_encode1 "alpha" (mkIndex toy_dim []) []
    = Raise IndexError.
Proof.
  repeat split.
Qed.

Lemma toy_encode1_dim (s : string) : List.length (toy_encode1 s) = toy_dim.
Proof. reflexivity. Qed.

(** [search_query_size] on the three-chunk index. *)
Lemma search_query_size_witness :
  search_query toy_dim toy_encode1 "alpha" greek_index greek_chunks
    = Ok ["alpha"; "beta"; "gamma"; "gamma"; "gamma"]%string /\
  List.length ["alpha"; "beta"; "gamma"; "gamma"; "gamma"]%string = 5 /\
  Forall (fun l => l = no_label \/
                   (in_range (ntotal greek_index) l /\
                    in_range (List.length greek_chunks) l))
    (labels toy_encode1 "alpha" greek_index).
Proof.
  assert (H : search_query toy_dim toy_encode1 "alpha" greek_index greek_chunks
              = Ok ["alpha"; "beta"; "gamma"; "gamma"; "gamma"]%string)
    by reflexivity.
  split; [exact H|].
  destruct (search_query_size toy_dim toy_encode1 "alpha" greek_index
              greek_chunks _ H) as (_ & _ & _ & L & F).
  split; [exact L | exact F].
Defined.

(** [short_index_returns] on the three-chunk index. *)
Lemma short_index_returns_witness :
  index_d greek_index = toy_dim /\
  ntotal greek_index < 5 /\
  ntotal greek_index <= List.length greek_chunks /\
  greek_chunks <> [] /\
  (exists res,
     search_query toy_dim toy_encode1 "beta" greek_index greek_chunks = Ok res /\
     List.length res = 5) /\
  search_query toy_dim toy_encode1 "beta" greek_index [] = Raise IndexError.
Proof.
  assert (Hd : index_d greek_index = toy_dim) by reflexivity.
  assert (H5 : ntotal greek_index < 5) by (vm_compute; lia).
  assert (Hm : ntotal greek_index <= List.length greek_chunks)
    by (vm_compute; lia).
  assert (Hne : greek_chunks <> []) by discriminate.
  repeat (split; [assumption|]).
  exact (short_index_returns toy_dim toy_encode1 "beta" greek_index
           greek_chunks Hd H5 Hm Hne).
Defined.

(** [short_index_pads] on the three-chunk index. *)
Lemma short_index_pads_witness :
  index_d greek_index = toy_dim /\
  ntotal greek_index < 5 /\
  ntotal greek_index <= List.length greek_chunks /\
  greek_chunks <> [] /\
  search_query toy_dim toy_encode1 "beta" greek_index greek_chunks
    = Ok (map (chunk_at greek_chunks) (hits toy_encode1 "beta" greek_index)
          ++ repeat (last greek_chunks EmptyString)
               (5 - List.length (hits toy_encode1 "beta" greek_index))).
Proof.
  assert (Hd : index_d greek_index = toy_dim) by reflexivity.
  assert (H5 : ntotal greek_index < 5) by (vm_compute; lia).
  assert (Hm : ntotal greek_index <= List.length greek_chunks)
    by (vm_compute; lia).
  assert (Hne : greek_chunks <> []) by discriminate.
  repeat (split; [assumption|]).
  exact (proj1 (proj2 (proj2 (proj2 (proj2
           (short_index_pads toy_dim toy_encode1 "beta" greek_index
              greek_chunks Hd H5 Hm Hne)))))).
Defined.

(** [search_query_five] on the three-chunk index. *)
Lemma search_query_five_witness :
  search_query toy_dim toy_encode1 "alpha" greek_index greek_chunks
    = Ok ["alpha"; "beta"; "gamma"; "gamma"; "gamma"]%string /\
  exists D_ I_ row,
    search greek_index (encode toy_dim toy_encode1 ["alpha"%string]) 5
      = Ok (D_, I_) /\
    getitem I_ 0 = Ok row /\
    List.length row = 5 /\
    mapM (fun i => getitem greek_chunks i) row
      = Ok ["alpha"; "beta"; "gamma"; "gamma"; "gamma"]%string /\
    List.length ["alpha"; "beta"; "gamma"; "gamma"; "gamma"]%string = 5.
Proof.
  assert (H : search_query toy_dim toy_encode1 "alpha" greek_index greek_chunks
              = Ok ["alpha"; "beta"; "gamma"; "gamma"; "gamma"]%string)
    by reflexivity.
  split; [exact H|].
  exact (proj1 (search_query_five toy_dim toy_encode1 "alpha")
           greek_index greek_chunks _ H).
Defined.

(** [distances_discarded] on two indexes whose searches agree on the
    labels and differ on the distances. *)
Lemma distances_discarded_witness :
  search empty_index (encode toy_dim toy_encode1 ["q"%string]) 5
    = Ok ([distances toy_encode1 "q" empty_index],
          [labels toy_encode1 "q" empty_index]) /\
  search comma_index (encode toy_dim toy_encode1 ["q"%string]) 5
    = Ok ([distances toy_encode1 "q" comma_index],
          [labels toy_encode1 "q" comma_index]) /\
  getitem [labels toy_encode1 "q" empty_index] 0
    = getitem [labels toy_encode1 "q" comma_index] 0 /\
  distances toy_encode1 "q" empty_index <> distances toy_encode1 "q" comma_index /\
  search_query toy_dim toy_encode1 "q" empty_index greek_chunks
    = search_query toy_dim toy_encode1 "q" comma_index greek_chunks.
Proof.
  assert (H1 : search empty_index (encode toy_dim toy_encode1 ["q"%string]) 5
               = Ok ([distances toy_encode1 "q" empty_index],
                     [labels toy_encode1 "q" empty_index])) by reflexivity.
  assert (H2 : search comma_index (encode toy_dim toy_encode1 ["q"%string]) 5
               = Ok ([distances toy_encode1 "q" comma_index],
                     [labels toy_encode1 "q" comma_index])) by reflexivity.
  assert (H3 : getitem [labels toy_encode1 "q" empty_index] 0
               = getitem [labels toy_encode1 "q" comma_index] 0) by reflexivity.
  repeat (split; [assumption|]).
  split; [vm_compute; discriminate|].
  exact (proj2 (distances_discarded toy_dim toy_encode1 "q" "q" empty_index
                  comma_index greek_chunks _ _ _ _ H1 H2 H3)).
Defined.

(** [embeddings_aligned] on the three-paragraph text. *)
Lemma embeddings_aligned_witness :
  (forall s, List.length (toy_encode1 s) = toy_dim) /\
  shape (snd (chunk_and_embed_text toy_dim toy_encode1 greek_text))
    = [List.length (fst (chunk_and_embed_text toy_dim toy_encode1 greek_text));
       toy_dim] /\
  well_formed (snd (chunk_and_embed_text toy_dim toy_encode1 greek_text)).
Proof.
  split; [exact toy_encode1_dim|].
  destruct (embeddings_aligned toy_dim toy_encode1 toy_encode1_dim greek_text)
    as (Hs & Hw & _).
  split; [exact Hs | exact Hw].
Defined.

(** [self_retrieval] with the query "C". *)
Lemma self_retrieval_witness :
  toy_encode1 "C" = toy_encode1 "C" /\
  exists index res j dist,
    create_faiss_index (encode toy_dim toy_encode1 letter_chunks) = Ok index /\
    search index (encode toy_dim toy_encode1 ["C"%string]) 5
      = Ok ([distances toy_encode1 "C" index], [labels toy_encode1 "C" index]) /\
    search_query toy_dim toy_encode1 "C" index letter_chunks = Ok res /\
    List.length res = 5 /\
    nth_error (labels toy_encode1 "C" index) j = Some 2%Z /\
    nth_error (distances toy_encode1 "C" index) j = Some dist /\
    (dist == 0)%Q /\
    nth_error res j = Some "C"%string.
Proof.
  split; [reflexivity|].
  exact (proj1 (self_retrieval toy_dim toy_encode1) "C"%string eq_refl).
Defined.

(** [create_faiss_index_rows] on the array of two vectors of lengths 2
    and 1. *)
Lemma create_faiss_index_rows_witness :
  well_formed ragged /\
  ~ shares_width (rows_of ragged) /\
  exists e, create_faiss_index ragged = Raise e.
Proof.
  assert (Hw : well_formed ragged) by exact I.
  assert (Hn : ~ shares_width (rows_of ragged)).
  { intro H.
    specialize (H [1%Q; 2%Q] [3%Q] (or_introl eq_refl)
                  (or_intror (or_introl eq_refl))).
    discriminate. }
  split; [exact Hw|]. split; [exact Hn|].
  exact (proj1 (create_faiss_index_rows ragged Hw) Hn).
Defined.


(** * Further facts about the notebook *)

(** ** Extraction *)

Lemma length_append (a b : string) :
  String.length (a ++ b) = String.length a + String.length b.
Proof. induction a as [|c a IH]; simpl; [reflexivity | now rewrite IH]. Qed.

Lemma length_concat_texts (texts : list string) :
  String.length (concat_texts texts) = list_sum (map String.length texts).
Proof.
  induction texts as [|t texts IH]; simpl; [reflexivity|].
  now rewrite length_append, IH.
Qed.

(** The loop returns the text read so far followed by the texts of all
    the pages, and raises when a page does. *)
Lemma read_pages_spec (fitz_page : Type) (get_text : fitz_page -> option string)
    (doc : list fitz_page) :
  forall acc,
    (forall text,
       read_pages fitz_page get_text acc doc = Some text <->
       exists texts, map get_text doc = map Some texts /\
                     text = (acc ++ concat_texts texts)%string) /\
    (read_pages fitz_page get_text acc doc = None <->
     exists page, In page doc /\ get_text page = None).
Proof.
  induction doc as [|page rest IH]; intro acc; simpl.
  - split.
    + intro text. split.
      * intro H. inversion H. exists []. simpl.
        now rewrite append_empty_r.
      * intros (texts & Hm & Ht). destruct texts; [|discriminate].
        simpl in Ht. now rewrite append_empty_r in Ht; subst.
    + split; [discriminate | intros (p & [] & _)].
  - destruct (get_text page) as [t|] eqn:Et.
    + destruct (IH (acc ++ t)%string) as [IHs IHn]. split.
      * intro text. rewrite IHs. split.
        -- intros (texts & Hm & Ht). exists (t :: texts). simpl.
           rewrite Hm. split; [reflexivity|].
           now rewrite Ht, append_assoc.
        -- intros (texts & Hm & Ht). destruct texts as [|t' texts];
             [discriminate|].
           simpl in Hm. inversion Hm; subst t'.
           exists texts. split; [assumption|].
           simpl in Ht. now rewrite Ht, append_assoc.
      * rewrite IHn. split.
        -- intros (p & Hp & Hn). exists p. split; [now right | exact Hn].
        -- intros (p & [<- | Hp] & Hn); [congruence|]. now exists p.
    + split.
      * intro text. split; [discriminate|].
        intros (texts & Hm & _). destruct texts; discriminate.
      * split; [|reflexivity]. intros _. exists page. split; [now left | exact Et].
Qed.

Lemma read_tables_spec (plumber_page : Type)
    (extract_tables : plumber_page -> option (list table))
    (pages : list plumber_page) :
  forall acc,
    (forall tables,
       read_tables plumber_page extract_tables acc pages = Some tables <->
       exists per_page, map extract_tables pages = map Some per_page /\
                        tables = acc ++ per_page) /\
    (read_tables plumber_page extract_tables acc pages = None <->
     exists page, In page pages /\ extract_tables page = None).
Proof.
  induction pages as [|page rest IH]; intro acc; simpl.
  - split.
    + intro tables. split.
      * intro H. inversion H. exists []. now rewrite app_nil_r.
      * intros (per_page & Hm & Ht). destruct per_page; [|discriminate].
        now rewrite app_nil_r in Ht; subst.
    + split; [discriminate | intros (p & [] & _)].
  - destruct (extract_tables page) as [t|] eqn:Et.
    + destruct (IH (acc ++ [t])) as [IHs IHn]. split.
      * intro tables. rewrite IHs. split.
        -- intros (per_page & Hm & Ht). exists (t :: per_page). simpl.
           rewrite Hm. split; [reflexivity|].
           now rewrite Ht, <- app_assoc.
        -- intros (per_page & Hm & Ht). destruct per_page as [|t' per_page];
             [discriminate|].
           simpl in Hm. inversion Hm; subst t'.
           exists per_page. split; [assumption|].
           now rewrite Ht, <- app_assoc.
      * rewrite IHn. split.
        -- intros (p & Hp & Hn). exists p. split; [now right | exact Hn].
        -- intros (p & [<- | Hp] & Hn); [congruence|]. now exists p.
    + split.
      * intro tables. split; [discriminate|].
        intros (per_page & Hm & _). destruct per_page; discriminate.
      * split; [|reflexivity]. intros _. exists page. split; [now left | exact Et].
Qed.

(** X1: [extract_text_from_pdf] returns a text exactly when the document
    opens and every page gives its text, and the text is then the page
    texts one after the other in page order, with nothing put between two
    pages (its length is the sum of theirs); it raises exactly when the
    document does not open or some page raises, and then no text of the
    other pages is returned. *)
Theorem extract_text_concatenates (fitz_page : Type)
    (fitz_open : string -> option (list fitz_page))
    (get_text : fitz_page -> option string) (pdf_path : string) :
  (forall text,
     extract_text_from_pdf fitz_page fitz_open get_text pdf_path = Some text <->
     exists doc texts,
       fitz_open pdf_path = Some doc /\
       map get_text doc = map Some texts /\
       text = concat_texts texts /\
       String.length text = list_sum (map String.length texts)) /\
  (extract_text_from_pdf fitz_page fitz_open get_text pdf_path = None <->
   fitz_open pdf_path = None \/
   exists doc page,
     fitz_open pdf_path = Some doc /\ In page doc /\ get_text page = None).
Proof.
  unfold extract_text_from_pdf.
  destruct (fitz_open pdf_path) as [doc|].
  - destruct (read_pages_spec fitz_page get_text doc EmptyString) as [Hs Hn].
    split.
    + intro text. rewrite Hs. split.
      * intros (texts & Hm & Ht). exists doc, texts. simpl in Ht.
        repeat split; try assumption.
        rewrite Ht. apply length_concat_texts.
      * intros (doc' & texts & Hd & Hm & Ht & _). inversion Hd; subst doc'.
        now exists texts.
    + rewrite Hn. split.
      * intros (page & Hp & Hg). right. now exists doc, page.
      * intros [H | (doc' & page & Hd & Hp & Hg)]; [discriminate|].
        inversion Hd; subst doc'. now exists page.
  - split.
    + intro text. split; [discriminate|].
      intros (doc & texts & Hd & _). discriminate.
    + split; [now left | reflexivity].
Qed.

(** X2: [extract_tables_from_pdf] returns exactly when the document
    opens and every page gives its tables, and it then returns one entry
    per page, in page order, entry [i] being the tables of page [i] (also
    when that page has none); it raises exactly when the document does
    not open or some page raises. *)
Theorem extract_tables_per_page (plumber_page : Type)
    (pdfplumber_open : string -> option (list plumber_page))
    (extract_tables : plumber_page -> option (list table))
    (pdf_path : string) :
  (forall tables,
     extract_tables_from_pdf plumber_page pdfplumber_open extract_tables
       pdf_path = Some tables <->
     exists pages,
       pdfplumber_open pdf_path = Some pages /\
       map extract_tables pages = map Some tables) /\
  (forall tables,
     extract_tables_from_pdf plumber_page pdfplumber_open extract_tables
       pdf_path = Some tables ->
     exists pages,
       pdfplumber_open pdf_path = Some pages /\
       List.length tables = List.length pages /\
       forall i page, nth_error pages i = Some page ->
         exists page_tables, extract_tables page = Some page_tables /\
                             nth_error tables i = Some page_tables) /\
  (extract_tables_from_pdf plumber_page pdfplumber_open extract_tables pdf_path
   = None <->
   pdfplumber_open pdf_path = None \/
   exists pages page,
     pdfplumber_open pdf_path = Some pages /\ In page pages /\
     extract_tables page = None).
Proof.
  unfold extract_tables_from_pdf.
  destruct (pdfplumber_open pdf_path) as [pages|].
  - destruct (read_tables_spec plumber_page extract_tables pages []) as [Hs Hn].
    assert (Hiff : forall tables,
               read_tables plumber_page extract_tables [] pages = Some tables <->
               map extract_tables pages = map Some tables).
    { intro tables. rewrite Hs. split.
      - intros (per_page & Hm & Ht). simpl in Ht. now subst.
      - intro Hm. now exists tables. }
    split; [|split].
    + intro tables. rewrite Hiff. split.
      * intro Hm. now exists pages.
      * intros (pages' & Hp & Hm). now inversion Hp; subst.
    + intros tables Ht. apply Hiff in Ht. exists pages.
      split; [reflexivity|]. split.
      * rewrite <- (length_map extract_tables pages), Ht. symmetry. apply length_map.
      * intros i page Hi.
        assert (Hn' : nth_error (map extract_tables pages) i
                      = Some (extract_tables page))
          by (now rewrite nth_error_map, Hi).
        rewrite Ht, nth_error_map in Hn'.
        destruct (nth_error tables i) as [t|]; [|discriminate].
        simpl in Hn'. inversion Hn' as [Ht']. now exists t.
    + rewrite Hn. split.
      * intros (page & Hp & Hg). right. now exists pages, page.
      * intros [H | (pages' & page & Hd & Hp & Hg)]; [discriminate|].
        inversion Hd; subst pages'. now exists page.
  - split; [|split].
    + intro tables. split; [discriminate|].
      intros (pages & Hp & _). discriminate.
    + intros tables H. discriminate.
    + split; [now left | reflexivity].
Qed.

(** ** More on splitting *)

Lemma count_cons_bounds (n : nat) :
  forall s c, String.length s <= n ->
    count s <= count (String c s) /\ count (String c s) <= S (count s).
Proof.
  induction n as [|n IH]; intros s c Hlen.
  - destruct s; simpl in Hlen; [|lia]. simpl. lia.
  - destruct s as [|c2 rest]; [simpl; lia|].
    simpl in Hlen.
    change (count (String c (String c2 rest))) with
      (if (is_nl c && is_nl c2)%bool then S (count rest)
       else count (String c2 rest)).
    destruct (is_nl c && is_nl c2)%bool; [|lia].
    destruct (IH rest c2) as [H1 H2]; [lia|]. lia.
Qed.

(** The scan of a concatenation: that of the first string, then that of
    the second, which starts one character later when the first left a
    newline pending and the second starts with one. *)
Lemma count_app_pending (n : nat) :
  forall a b, String.length a <= n ->
    count (a ++ b)
    = count a + (if (pending a && starts_nl b)%bool
                 then S (count (tail b)) else count b).
Proof.
  induction n as [|n IH]; intros a b Hlen.
  - destruct a; simpl in Hlen; [|lia]. reflexivity.
  - destruct a as [|c1 rest]; [reflexivity|].
    destruct rest as [|c2 rest'].
    + destruct b as [|c b']; simpl.
      * now rewrite andb_false_r.
      * destruct (is_nl c1 && is_nl c)%bool; reflexivity.
    + simpl in Hlen.
      change (count (String c1 (String c2 rest') ++ b)) with
        (if (is_nl c1 && is_nl c2)%bool then S (count (rest' ++ b))
         else count (String c2 rest' ++ b)).
      change (count (String c1 (String c2 rest'))) with
        (if (is_nl c1 && is_nl c2)%bool then S (count rest')
         else count (String c2 rest')).
      change (pending (String c1 (String c2 rest'))) with
        (if (is_nl c1 && is_nl c2)%bool then pending rest'
         else pending (String c2 rest')).
      destruct (is_nl c1 && is_nl c2)%bool.
      * rewrite (IH rest' b) by lia. reflexivity.
      * rewrite (IH (String c2 rest') b) by (simpl; lia). reflexivity.
Qed.

Lemma count_app_bounds (a b : string) :
  count a + count b <= count (a ++ b) /\
  count (a ++ b) <= S (count a + count b).
Proof.
  rewrite (count_app_pending (String.length a) a b (le_n _)).
  destruct (pending a && starts_nl b)%bool; [|lia].
  destruct b as [|c b']; simpl tail.
  - simpl. lia.
  - destruct (count_cons_bounds (String.length b') b' c (le_n _)). lia.
Qed.

Lemma count_concat_texts (texts : list string) :
  list_sum (map count texts) <= count (concat_texts texts) /\
  count (concat_texts texts)
  <= list_sum (map count texts) + (List.length texts - 1).
Proof.
  induction texts as [|t texts [IHl IHu]]; [simpl; lia|].
  destruct texts as [|t' texts].
  - simpl. rewrite append_empty_r. lia.
  - change (concat_texts (t :: t' :: texts))
      with (t ++ concat_texts (t' :: texts))%string.
    destruct (count_app_bounds t (concat_texts (t' :: texts))) as [Hl Hu].
    unfold list_sum in *. cbn [map fold_right List.length] in *. lia.
Qed.

Lemma list_sum_map_S {A : Type} (f : A -> nat) (l : list A) :
  list_sum (map (fun a => S (f a)) l) = list_sum (map f l) + List.length l.
Proof.
  induction l as [|a l IH]; [reflexivity|].
  unfold list_sum in *. cbn [map fold_right List.length]. lia.
Qed.

(** X3: the pages are joined with nothing between them, so a page
    boundary is no chunk boundary: for a document of at least one page,
    the text has at most as many chunks as the pages have when split one
    by one, and at least that number less one per page boundary (the last
    chunk of a page and the first of the next are one chunk, unless
    newlines on both sides of the boundary make a separator). *)
Theorem chunks_across_pages (fitz_page : Type)
    (fitz_open : string -> option (list fitz_page))
    (get_text : fitz_page -> option string) (pdf_path : string)
    (doc : list fitz_page) (text : string) :
  fitz_open pdf_path = Some doc ->
  doc <> [] ->
  extract_text_from_pdf fitz_page fitz_open get_text pdf_path = Some text ->
  exists texts,
    map get_text doc = map Some texts /\
    let per_page :=
      list_sum (map (fun page_text => List.length (split page_text)) texts) in
    List.length (split text) <= per_page /\
    per_page + 1 <= List.length (split text) + List.length doc.
Proof.
  intros Hopen Hne Htext.
  unfold extract_text_from_pdf in Htext. rewrite Hopen in Htext.
  apply (proj1 (read_pages_spec fitz_page get_text doc EmptyString)) in Htext.
  destruct Htext as (texts & Hm & Ht). simpl in Ht.
  exists texts. split; [exact Hm|]. intro per_page.
  assert (Hlen : List.length texts = List.length doc).
  { rewrite <- (length_map Some texts), <- Hm. apply length_map. }
  assert (Hp : per_page = list_sum (map count texts) + List.length doc).
  { unfold per_page. rewrite <- Hlen, <- list_sum_map_S. f_equal.
    apply map_ext. intro t. apply split_length. }
  destruct (count_concat_texts texts) as [Hl Hu].
  rewrite Hlen in Hu.
  rewrite split_length, Hp, Ht.
  assert (0 < List.length doc) by (destruct doc; simpl; [congruence | lia]).
  lia.
Qed.

Lemma split_from_sep (a : string) :
  forall cur b, count a = 0 -> ends_nl a = false ->
    split_from cur (a ++ sep ++ b) = (cur ++ a)%string :: split_from EmptyString b.
Proof.
  induction a as [|c1 a IH]; intros cur b Hc He.
  - simpl. now rewrite append_empty_r.
  - destruct a as [|c2 a'].
    + simpl in He.
      change (split_from cur (String c1 EmptyString ++ sep ++ b)) with
        (if (is_nl c1 && is_nl nl)%bool
         then cur :: split_from EmptyString (String nl b)
         else split_from (cur ++ String c1 EmptyString)%string (sep ++ b)).
      rewrite He. simpl. reflexivity.
    + change (count (String c1 (String c2 a'))) with
        (if (is_nl c1 && is_nl c2)%bool then S (count a')
         else count (String c2 a')) in Hc.
      change (split_from cur (String c1 (String c2 a') ++ sep ++ b)) with
        (if (is_nl c1 && is_nl c2)%bool
         then cur :: split_from EmptyString (a' ++ sep ++ b)
         else split_from (cur ++ String c1 EmptyString)%string
                (String c2 a' ++ sep ++ b)).
      destruct (is_nl c1 && is_nl c2)%bool; [discriminate|].
      rewrite IH by assumption.
      now rewrite append_char.
Qed.

Lemma split_single (text : string) : count text = 0 -> split text = [text].
Proof.
  intro Hc.
  pose proof (split_length text) as L. pose proof (split_join text) as J.
  rewrite Hc in L.
  destruct (split text) as [|p [|p' ps]]; simpl in L; try discriminate.
  simpl in J. now subst p.
Qed.

(** X4: splitting undoes joining: for a non-empty list of pieces, none
    of which holds a separator and none of which but the last ends with a
    newline, [split] of the pieces joined by the separator gives the
    pieces back. *)
Theorem split_join_pieces (pieces : list string) :
  pieces <> [] ->
  Forall (fun piece => count piece = 0) pieces ->
  Forall (fun piece => ends_nl piece = false) (removelast pieces) ->
  split (join pieces) = pieces.
Proof.
  induction pieces as [|p ps IH]; intros Hne Hc He; [congruence|].
  destruct ps as [|p' ps].
  - apply split_single. now inversion Hc.
  - change (join (p :: p' :: ps)) with (p ++ sep ++ join (p' :: ps))%string.
    change (removelast (p :: p' :: ps)) with (p :: removelast (p' :: ps)) in He.
    inversion Hc; subst. inversion He; subst.
    unfold split. rewrite split_from_sep by assumption.
    f_equal. apply IH; [discriminate | assumption | assumption].
Qed.

(** X5: the text comes back as the one chunk exactly when it holds no
    separator. *)
Theorem single_chunk_iff (text : string) :
  split text = [text] <-> count text = 0.
Proof.
  split.
  - intro H. pose proof (split_length text) as L.
    rewrite H in L. simpl in L. lia.
  - apply split_single.
Qed.

(** ** More on indexing and the comprehension *)

Lemma getitem_In {A : Type} (l : list A) (i : Z) (a : A) :
  getitem l i = Ok a -> In a l.
Proof.
  unfold getitem.
  destruct ((0 <=? (if (i <? 0)%Z then (i + Z.of_nat (List.length l))%Z else i))%Z
            && ((if (i <? 0)%Z then (i + Z.of_nat (List.length l))%Z else i)
                <? Z.of_nat (List.length l))%Z)%bool; [|discriminate].
  destruct (nth_error l _) as [b|] eqn:E; [|discriminate].
  intro H. inversion H; subst. eapply nth_error_In, E.
Qed.

Lemma getitem_raises {A : Type} (l : list A) (i : Z) (e : exn) :
  getitem l i = Raise e -> e = IndexError /\ ~ indexable (List.length l) i.
Proof.
  unfold getitem, indexable.
  set (n := Z.of_nat (List.length l)).
  destruct (i <? 0)%Z eqn:E;
    [apply Z.ltb_lt in E | apply Z.ltb_ge in E];
    match goal with
    | |- context [(?a && ?b)%bool] => destruct (a && b)%bool eqn:R
    end.
  - apply andb_true_iff in R. destruct R as [R1 R2].
    apply Z.leb_le in R1. apply Z.ltb_lt in R2.
    destruct (nth_error l (Z.to_nat (i + n))) eqn:N; [discriminate|].
    apply nth_error_None in N. lia.
  - intro H. inversion H. split; [reflexivity|].
    apply andb_false_iff in R. destruct R as [R | R];
      [apply Z.leb_gt in R | apply Z.ltb_ge in R]; lia.
  - apply andb_true_iff in R. destruct R as [R1 R2].
    apply Z.leb_le in R1. apply Z.ltb_lt in R2.
    destruct (nth_error l (Z.to_nat i)) eqn:N; [discriminate|].
    apply nth_error_None in N. lia.
  - intro H. inversion H. split; [reflexivity|].
    apply andb_false_iff in R. destruct R as [R | R];
      [apply Z.leb_gt in R | apply Z.ltb_ge in R]; lia.
Qed.

Lemma mapM_raises {A B : Type} (f : A -> result B) (l : list A) (e : exn) :
  mapM f l = Raise e -> exists a, In a l /\ f a = Raise e.
Proof.
  induction l as [|a l IH]; simpl; [discriminate|].
  destruct (f a) as [b|e'] eqn:Fa; simpl.
  - destruct (mapM f l) as [bs|e'']; simpl; [discriminate|].
    intro H. inversion H; subst.
    destruct (IH eq_refl) as (x & Hx & Fx). eauto.
  - intro H. inversion H; subst. eauto.
Qed.

Lemma mapM_Ok_In {A B : Type} (f : A -> result B) (l : list A) (r : list B) :
  mapM f l = Ok r ->
  (forall a, In a l -> exists b, f a = Ok b) /\
  (forall b, In b r -> exists a, In a l /\ f a = Ok b).
Proof.
  revert r. induction l as [|a l IH]; intros r H; simpl in H.
  - inversion H. split; intros x [].
  - destruct (f a) as [b|] eqn:Fa; simpl in H; [|discriminate].
    destruct (mapM f l) as [bs|] eqn:M; simpl in H; [|discriminate].
    inversion H; subst r. destruct (IH _ eq_refl) as [IH1 IH2]. split.
    + intros x [<- | Hx]; eauto.
    + intros y [<- | Hy].
      * exists a. split; [now left | exact Fa].
      * destruct (IH2 _ Hy) as (x & Hx & Fx).
        exists x. split; [now right | exact Fx].
Qed.

(** The comprehension over a row of labels: a list, or [IndexError] at a
    label the chunk list does not accept. *)
Lemma gather_outcome (chunks : list string) (row : list Z) :
  (exists res, mapM (fun i => getitem chunks i) row = Ok res /\
               Forall (indexable (List.length chunks)) row) \/
  (mapM (fun i => getitem chunks i) row = Raise IndexError /\
   exists l, In l row /\ ~ indexable (List.length chunks) l).
Proof.
  destruct (mapM (fun i => getitem chunks i) row) as [res|e] eqn:M.
  - left. exists res. split; [reflexivity|].
    apply Forall_forall. intros l Hl.
    destruct (proj1 (mapM_Ok_In _ _ _ M) l Hl) as [b Hb].
    now apply getitem_range in Hb.
  - right. destruct (mapM_raises _ _ _ M) as (l & Hl & Fl).
    destruct (getitem_raises _ _ _ Fl) as [-> Hn]. eauto.
Qed.

(** ** More on the search *)

Lemma candidates_labels (f : vec -> Q) (xb : list vec) (s : nat) :
  map snd (combine (map f xb) (map Z.of_nat (seq s (List.length xb))))
  = map Z.of_nat (seq s (List.length xb)).
Proof.
  revert s. induction xb as [|v xb IH]; intro s; simpl; [reflexivity|].
  now rewrite IH.
Qed.

Lemma NoDup_of_nat (l : list nat) : NoDup l -> NoDup (map Z.of_nat l).
Proof.
  induction 1 as [|n l Hn _ IH]; simpl; constructor; [|exact IH].
  intro H. apply in_map_iff in H. destruct H as (m & Hm & Hin).
  apply Nat2Z.inj in Hm. now subst m.
Qed.

Lemma NoDup_firstn {A : Type} (k : nat) (l : list A) :
  NoDup l -> NoDup (firstn k l).
Proof.
  intro H. rewrite <- (firstn_skipn k l) in H.
  now apply NoDup_app_remove_r in H.
Qed.

Lemma NoDup_map_filter {A B : Type} (g : A -> B) (f : A -> bool) (l : list A) :
  NoDup (map g l) -> NoDup (map g (filter f l)).
Proof.
  induction l as [|a l IH]; simpl; intro H; [constructor|].
  inversion H as [|? ? Hn Hd]; subst.
  destruct (f a); [|now apply IH].
  simpl. constructor; [|now apply IH].
  intro Hin. apply Hn. apply in_map_iff in Hin.
  destruct Hin as (x & Hx & Hf). apply filter_In in Hf.
  apply in_map_iff. exists x. tauto.
Qed.

Lemma hits_NoDup (encode1 : string -> vec) (query : string)
    (index : IndexFlatL2) :
  NoDup (hits encode1 query index).
Proof.
  unfold hits. rewrite <- firstn_map. apply NoDup_firstn.
  apply (Permutation_NoDup
           (Permutation_map snd (Permutation_sym (by_distance_perm _)))).
  apply NoDup_map_filter.
  unfold candidates. rewrite candidates_labels.
  apply NoDup_of_nat, seq_NoDup.
Qed.

Lemma filled_positions (n : nat) (l : list Z) :
  Forall (in_range n) l -> filled l = l.
Proof.
  induction 1 as [|x l [H0 _] _ IH]; simpl; [reflexivity|].
  rewrite (proj2 (Z.leb_le 0 x) H0). now f_equal.
Qed.

Lemma filled_unfilled (n : nat) : filled (repeat no_label n) = [].
Proof. induction n as [|n IH]; simpl; [reflexivity | exact IH]. Qed.

Lemma filled_labels (encode1 : string -> vec) (query : string)
    (index : IndexFlatL2) :
  filled (labels encode1 query index) = hits encode1 query index.
Proof.
  destruct (labels_slots encode1 query index) as (E & _ & F).
  rewrite E at 1. unfold filled at 1. rewrite filter_app.
  fold (filled (hits encode1 query index)).
  fold (filled (repeat no_label (5 - List.length (hits encode1 query index)))).
  rewrite filled_unfilled, app_nil_r.
  now apply (filled_positions (ntotal index)).
Qed.

Lemma distinct_positions (l : list Z) (n : nat) :
  NoDup l -> Forall (in_range n) l -> List.length l <= n.
Proof.
  intros Hd Hr.
  rewrite <- (length_map Z.to_nat l), <- (length_seq n 0).
  apply NoDup_incl_length.
  - induction Hd as [|a l Ha _ IH]; simpl; constructor.
    + intro H. apply in_map_iff in H. destruct H as (z & Hz & Hin).
      apply Forall_cons_iff in Hr. destruct Hr as [[Ha0 _] Hl].
      pose proof (proj1 (Forall_forall _ _) Hl z Hin) as [Hz0 _].
      apply Z2Nat.inj in Hz; [|assumption|assumption]. now subst z.
    + apply IH. now apply Forall_cons_iff in Hr.
  - intros x Hx. apply in_map_iff in Hx. destruct Hx as (z & <- & Hz).
    apply in_seq. pose proof (proj1 (Forall_forall _ _) Hr z Hz) as [? ?].
    lia.
Qed.

(** ** More on the query resolver *)

(** X6: for every text the index builder succeeds on the embeddings of
    its chunks, and the index it returns has the model's width and holds
    one vector per chunk: one more than the text has separators, so at
    least one. *)
Theorem index_size (dim : nat) (encode1 : string -> vec) (text : string) :
  exists index,
    create_faiss_index (snd (chunk_and_embed_text dim encode1 text)) = Ok index /\
    index_d index = dim /\
    ntotal index = List.length (fst (chunk_and_embed_text dim encode1 text)) /\
    ntotal index = count text + 1 /\
    0 < ntotal index.
Proof.
  exists (mkIndex dim (map encode1 (split text))).
  cbn [chunk_and_embed_text fst snd]. unfold encode, ntotal. cbn [index_xb index_d].
  rewrite create_faiss_index_2d, length_map, split_length.
  repeat split; lia.
Qed.

(** X7: the outcomes of [search_query].  It raises [AssertionError]
    exactly when the index has another width than the model;
    [IndexError] exactly when the widths agree and the chunk list does
    not accept one of the 5 labels of the search; it never raises
    [ValueError]; and it returns a list exactly when the widths agree and
    the chunk list accepts every label. *)
Theorem search_query_outcomes (dim : nat) (encode1 : string -> vec)
    (query : string) (index : IndexFlatL2) (chunks : list string) :
  (search_query dim encode1 query index chunks = Raise AssertionError
   <-> index_d index <> dim) /\
  (search_query dim encode1 query index chunks = Raise IndexError
   <-> index_d index = dim /\
       exists l, In l (labels encode1 query index) /\
                 ~ indexable (List.length chunks) l) /\
  search_query dim encode1 query index chunks <> Raise ValueError /\
  ((exists res, search_query dim encode1 query index chunks = Ok res)
   <-> index_d index = dim /\
       Forall (indexable (List.length chunks)) (labels encode1 query index)).
Proof.
  destruct (Nat.eq_dec (index_d index) dim) as [Hd | Hd].
  - rewrite (search_query_gathers dim encode1 query index chunks Hd).
    destruct (gather_outcome chunks (labels encode1 query index))
      as [(res & -> & F) | (-> & l & Hl & Hn)].
    + split; [split; [discriminate | intro; contradiction]|].
      split; [split; [discriminate|]|].
      { intros (_ & l & Hl & Hn). elim Hn.
        apply (proj1 (Forall_forall _ _) F l Hl). }
      split; [discriminate|].
      split; [intros _; now split | intros _; now exists res].
    + split; [split; [discriminate | intro; contradiction]|].
      split; [split; [intros _; split; [exact Hd | now exists l] | reflexivity]|].
      split; [discriminate|].
      split.
      * intros [res H]. discriminate.
      * intros [_ F]. elim Hn. apply (proj1 (Forall_forall _ _) F l Hl).
  - unfold search_query. rewrite (search_width dim encode1 query index 5 Hd).
    simpl.
    split; [split; [intros _; exact Hd | reflexivity]|].
    split; [split; [discriminate | intros [H _]; contradiction]|].
    split; [discriminate|].
    split.
    + intros [res H]. discriminate.
    + intros [H _]. contradiction.
Qed.

(** X8: a chunk list shorter than the number of slots the search fills
    makes [search_query] raise [IndexError]: the filled slots hold
    distinct positions of the index, so one of them lies beyond the chunk
    list. *)
Theorem short_chunk_list_raises (dim : nat) (encode1 : string -> vec)
    (query : string) (index : IndexFlatL2) (chunks : list string) :
  index_d index = dim ->
  List.length chunks < List.length (filled (labels encode1 query index)) ->
  search_query dim encode1 query index chunks = Raise IndexError.
Proof.
  intros Hd Hlen. rewrite filled_labels in Hlen.
  rewrite (search_query_gathers dim encode1 query index chunks Hd).
  destruct (gather_outcome chunks (labels encode1 query index))
    as [(res & _ & F) | (H & _)]; [|exact H].
  exfalso.
  destruct (labels_slots encode1 query index) as (E & L & R).
  rewrite E in F. apply Forall_app in F. destruct F as [F _].
  assert (Hin : Forall (in_range (List.length chunks)) (hits encode1 query index)).
  { apply Forall_forall. intros l Hl.
    pose proof (proj1 (Forall_forall _ _) F l Hl) as [_ Hu].
    pose proof (proj1 (Forall_forall _ _) R l Hl) as [H0 _].
    split; assumption. }
  pose proof (distinct_positions _ _ (hits_NoDup encode1 query index) Hin).
  lia.
Qed.

(** X9: [search_query] returns nothing but entries of the chunk list it
    was given, whatever the index. *)
Theorem results_are_chunks (dim : nat) (encode1 : string -> vec)
    (query : string) (index : IndexFlatL2) (chunks res : list string) :
  search_query dim encode1 query index chunks = Ok res ->
  Forall (fun chunk => In chunk chunks) res.
Proof.
  intro H. unfold search_query in H.
  destruct (search index (encode dim encode1 [query]) 5) as [[D_ I_]|e];
    simpl in H; [|discriminate].
  destruct (getitem I_ 0) as [row|e]; simpl in H; [|discriminate].
  apply Forall_forall. intros c Hc.
  destruct (proj2 (mapM_Ok_In _ _ _ H) c Hc) as (l & _ & Hl).
  now apply getitem_In in Hl.
Qed.

(** X10: the row of labels of the search is its filled slots followed
    only by unfilled ones, and the filled slots hold pairwise distinct
    positions of the index, at most [min 5 ntotal] of them: no stored
    vector is reported twice. *)
Theorem filled_slots_distinct (encode1 : string -> vec) (query : string)
    (index : IndexFlatL2) :
  let row := labels encode1 query index in
  let found := filled row in
  row = found ++ repeat no_label (5 - List.length found) /\
  NoDup found /\
  Forall (in_range (ntotal index)) found /\
  List.length found <= Nat.min 5 (ntotal index).
Proof.
  cbv zeta. rewrite filled_labels.
  destruct (labels_slots encode1 query index) as (E & L & F).
  split; [exact E|]. split; [apply hits_NoDup|]. split; assumption.
Qed.

(** X12: self-retrieval for every document: when the query is one of
    the chunks of the text, the pipeline returns, in first place, a chunk
    of the text whose embedding is at distance 0 from the query's. *)
Theorem query_chunk_found_first (dim : nat) (encode1 : string -> vec)
    (text chunk : string) :
  In chunk (split text) ->
  exists first rest,
    example_usage dim encode1 text chunk = Ok (first :: rest) /\
    In first (split text) /\
    (fvec_L2sqr (encode1 chunk) (encode1 first) == 0)%Q.
Proof.
  intro Hin. rewrite example_usage_value.
  set (chunks := split text) in *.
  set (index := mkIndex dim (map encode1 chunks)).
  apply In_nth_error in Hin. destruct Hin as [n Hn].
  assert (Ev : nth_error (index_xb index) n = Some (encode1 chunk))
    by (cbn [index index_xb]; now rewrite nth_error_map, Hn).
  pose proof (candidates_nth (encode1 chunk) _ _ _ Ev) as Hc.
  apply nth_error_In in Hc.
  assert (Ha : admitted (fvec_L2sqr (encode1 chunk) (encode1 chunk),
                         Z.of_nat n) = true)
    by (apply admitted_below, zero_below_flt_max, fvec_L2sqr_self).
  pose proof (proj2 (filter_In admitted _ _) (conj Hc Ha)) as Hc'.
  clear Hc. rename Hc' into Hc.
  apply (Permutation_in _ (Permutation_sym (by_distance_perm _))) in Hc.
  pose proof (by_distance_sorted
                (filter admitted
                   (candidates (encode1 chunk) (index_xb index)))) as Hs.
  destruct (knn_slots 5 (encode1 chunk) (index_xb index)) as (_ & _ & F).
  unfold hits.
  destruct (by_distance
              (filter admitted
                 (candidates (encode1 chunk) (index_xb index))))
    as [|c0 t]; [contradiction|].
  cbn [firstn map app] in *.
  apply Forall_cons_iff in F. destruct F as [(n0 & v0 & Hs0 & Hn0 & Hf0) _].
  cbn [index index_xb] in Hn0. rewrite nth_error_map in Hn0.
  destruct (nth_error chunks n0) as [first|] eqn:E0; [|discriminate].
  simpl in Hn0. inversion Hn0; subst v0.
  exists first. eexists. split; [|split].
  - unfold chunk_at. rewrite Hs0, Nat2Z.id, (nth_error_nth _ _ _ E0).
    reflexivity.
  - eapply nth_error_In, E0.
  - rewrite <- Hf0. apply Qle_antisym.
    + inversion Hs as [|? ? _ Hall]; subst.
      assert (Hle : closer c0 (fvec_L2sqr (encode1 chunk) (encode1 chunk),
                               Z.of_nat n)).
      { destruct Hc as [<- | Hc]; [apply Qle_refl|].
        apply (proj1 (Forall_forall _ _) Hall _ Hc). }
      unfold closer in Hle. cbn [fst snd] in Hle.
      now rewrite fvec_L2sqr_self in Hle.
    + rewrite Hf0. apply fvec_L2sqr_nonneg.
Qed.

Lemma split_from_app_sep (n : nat) :
  forall a cur b, String.length a <= n -> pending a = false ->
    split_from cur (a ++ sep ++ b)
    = split_from cur a ++ split_from EmptyString b.
Proof.
  induction n as [|n IH]; intros a cur b Hlen Hp.
  - destruct a; simpl in Hlen; [|lia]. reflexivity.
  - destruct a as [|c1 rest]; [reflexivity|].
    destruct rest as [|c2 rest'].
    + simpl in Hp.
      change (split_from cur (String c1 EmptyString ++ sep ++ b)) with
        (if (is_nl c1 && is_nl nl)%bool
         then cur :: split_from EmptyString (String nl b)
         else split_from (cur ++ String c1 EmptyString)%string (sep ++ b)).
      rewrite Hp. reflexivity.
    + simpl in Hlen.
      change (pending (String c1 (String c2 rest'))) with
        (if (is_nl c1 && is_nl c2)%bool then pending rest'
         else pending (String c2 rest')) in Hp.
      change (split_from cur (String c1 (String c2 rest') ++ sep ++ b)) with
        (if (is_nl c1 && is_nl c2)%bool
         then cur :: split_from EmptyString (rest' ++ sep ++ b)
         else split_from (cur ++ String c1 EmptyString)%string
                (String c2 rest' ++ sep ++ b)).
      change (split_from cur (String c1 (String c2 rest'))) with
        (if (is_nl c1 && is_nl c2)%bool
         then cur :: split_from EmptyString rest'
         else split_from (cur ++ String c1 EmptyString)%string
                (String c2 rest')).
      destruct (is_nl c1 && is_nl c2)%bool.
      * rewrite (IH rest') by (assumption || lia). reflexivity.
      * apply IH; [simpl; lia | assumption].
Qed.

(** X13: chunking two texts put together with a separator between them
    is chunking each and putting the chunk lists together, provided the
    scan of the first text leaves no newline pending at its end; the
    number of separators is then the sum plus one. *)
Theorem split_app_sep (a b : string) :
  pending a = false ->
  split (a ++ sep ++ b) = split a ++ split b /\
  count (a ++ sep ++ b) = count a + 1 + count b.
Proof.
  intro Hp.
  assert (H : split (a ++ sep ++ b) = split a ++ split b)
    by (apply (split_from_app_sep (String.length a)); [lia | exact Hp]).
  split; [exact H|].
  pose proof (split_length (a ++ sep ++ b)) as L.
  rewrite H, length_app, !split_length in L. lia.
Qed.

(** ** The further facts on the small instance *)

Lemma extract_text_concatenates_witness :
  (exists doc texts,
     toy_open "greek.pdf" = Some doc /\
     map toy_get_text doc = map Some texts /\
     greek_text = concat_texts texts /\
     String.length greek_text = list_sum (map String.length texts)) /\
  extract_text_from_pdf (option string) toy_open toy_get_text "broken.pdf"
    = None.
Proof.
  destruct (extract_text_concatenates (option string) toy_open toy_get_text
              "greek.pdf") as [Hs _].
  destruct (extract_text_concatenates (option string) toy_open toy_get_text
              "broken.pdf") as [_ Hn].
  split.
  - apply (proj1 (Hs greek_text)). reflexivity.
  - apply (proj2 Hn). right. exists broken_pages, None.
    split; [reflexivity|]. split; [right; left; reflexivity | reflexivity].
Defined.

Lemma extract_tables_per_page_witness :
  (exists pages,
     toy_open "greek.pdf" = Some pages /\
     List.length [[[[Some ("alpha" ++ String nl EmptyString)%string]]];
                  [[[Some (String nl EmptyString ++ "beta" ++ sep
                           ++ "gamma")%string]]]]
     = List.length pages /\
     forall i page, nth_error pages i = Some page ->
       exists page_tables,
         toy_extract_tables page = Some page_tables /\
         nth_error [[[[Some ("alpha" ++ String nl EmptyString)%string]]];
                    [[[Some (String nl EmptyString ++ "beta" ++ sep
                             ++ "gamma")%string]]]] i
         = Some page_tables) /\
  extract_tables_from_pdf (option string) toy_open toy_extract_tables
    "missing.pdf" = None.
Proof.
  destruct (extract_tables_per_page (option string) toy_open
              toy_extract_tables "greek.pdf") as (_ & Hs & _).
  destruct (extract_tables_per_page (option string) toy_open
              toy_extract_tables "missing.pdf") as (_ & _ & Hn).
  split.
  - apply Hs. reflexivity.
  - apply (proj2 Hn). left. reflexivity.
Defined.

Lemma chunks_across_pages_witness :
  toy_open "greek.pdf" = Some toy_pages /\
  toy_pages <> [] /\
  extract_text_from_pdf (option string) toy_open toy_get_text "greek.pdf"
    = Some greek_text /\
  exists texts,
    map toy_get_text toy_pages = map Some texts /\
    List.length (split greek_text)
    <= list_sum (map (fun page_text => List.length (split page_text)) texts) /\
    list_sum (map (fun page_text => List.length (split page_text)) texts) + 1
    <= List.length (split greek_text) + List.length toy_pages.
Proof.
  assert (Ho : toy_open "greek.pdf" = Some toy_pages) by reflexivity.
  assert (Hn : toy_pages <> []) by discriminate.
  assert (Ht : extract_text_from_pdf (option string) toy_open toy_get_text
                 "greek.pdf" = Some greek_text) by reflexivity.
  split; [exact Ho|]. split; [exact Hn|]. split; [exact Ht|].
  exact (chunks_across_pages (option string) toy_open toy_get_text "greek.pdf"
           toy_pages greek_text Ho Hn Ht).
Defined.

Lemma split_join_pieces_witness :
  greek_chunks <> [] /\
  split (join greek_chunks) = greek_chunks.
Proof.
  assert (Hn : greek_chunks <> []) by discriminate.
  split; [exact Hn|].
  apply (split_join_pieces greek_chunks Hn); repeat constructor.
Defined.

Lemma short_chunk_list_raises_witness :
  index_d letter_index = toy_dim /\
  List.length greek_chunks
  < List.length (filled (labels toy_encode1 "C" letter_index)) /\
  search_query toy_dim toy_encode1 "C" letter_index greek_chunks
    = Raise IndexError.
Proof.
  assert (Hd : index_d letter_index = toy_dim) by reflexivity.
  assert (Hl : List.length greek_chunks
               < List.length (filled (labels toy_encode1 "C" letter_index)))
    by (vm_compute; lia).
  split; [exact Hd|]. split; [exact Hl|].
  exact (short_chunk_list_raises toy_dim toy_encode1 "C" letter_index
           greek_chunks Hd Hl).
Defined.

Lemma results_are_chunks_witness :
  search_query toy_dim toy_encode1 "beta" greek_index greek_chunks
    = Ok ["beta"; "alpha"; "gamma"; "gamma"; "gamma"]%string /\
  Forall (fun chunk => In chunk greek_chunks)
    ["beta"; "alpha"; "gamma"; "gamma"; "gamma"]%string.
Proof.
  assert (H : search_query toy_dim toy_encode1 "beta" greek_index greek_chunks
              = Ok ["beta"; "alpha"; "gamma"; "gamma"; "gamma"]%string)
    by reflexivity.
  split; [exact H|].
  exact (results_are_chunks toy_dim toy_encode1 "beta" greek_index
           greek_chunks _ H).
Defined.

Lemma query_chunk_found_first_witness :
  In "beta"%string (split greek_text) /\
  exists first rest,
    example_usage toy_dim toy_encode1 greek_text "beta" = Ok (first :: rest) /\
    In first (split greek_text) /\
    (fvec_L2sqr (toy_encode1 "beta") (toy_encode1 first) == 0)%Q.
Proof.
  assert (Hin : In "beta"%string (split greek_text))
    by (right; left; reflexivity).
  split; [exact Hin|].
  exact (query_chunk_found_first toy_dim toy_encode1 greek_text "beta" Hin).
Defined.

Lemma split_app_sep_witness :
  pending "alpha" = false /\
  split ("alpha" ++ sep ++ "beta") = split "alpha" ++ split "beta" /\
  count ("alpha" ++ sep ++ "beta") = count "alpha" + 1 + count "beta".
Proof.
  split; [reflexivity|].
  exact (split_app_sep "alpha" "beta" eq_refl).
Defined.
